(** * QAM: the training pipeline of [code/main.py]

    A shallow embedding of [compute_loss], [compute_loss_batch],
    [total_loss_for_grad], [update_step] and [train], of the class
    [QutritDataset], and of the loops of [main].

    Numbers.  JAX computes in float32.  A JAX scalar is modelled by the
    real number it approximates and an arithmetic operation by the exact
    one, except where rounding decides what the program does: the two
    predicates of [compute_loss], [norm_eff > 0] and
    [jnp.abs(beta - 1.0) < 1e-6], are evaluated on the float32 values that
    the code compares ([f32] is the rounding), and the step of the
    optimizer is also given on scalars that may be NaN
    ([update_step_jax]).  Overflow is outside the model.  A complex number
    is a pair (real part, imaginary part).

    Collaborators.  [main.py] imports [encode_qutrit],
    [buzek_hillery_clone], [embed], [decode_qubit_to_qutrit] and [fidelity]
    from modules that are not part of the source tree.  They are the fields
    of the record [Imports]; every theorem about the pipeline holds for all
    of them.  [Reference] gives one instance, written from the
    specification, on which the statements are evaluated. *)

From Stdlib Require Import Reals Lra Lia.
From stdpp Require Import gmap strings list fin_maps pretty.
#[local] Open Scope R_scope.

(** ** Numbers, vectors and the JAX primitives that main.py calls *)

#[global] Instance Rlt_decision (x y : R) : Decision (x < y) := Rlt_dec x y.
#[global] Instance Rgt_decision (x y : R) : Decision (x > y) := Rgt_dec x y.

Definition complex : Type := R * R.

Definition Cre (z : complex) : R := fst z.
Definition Cim (z : complex) : R := snd z.

(** The squared modulus, real(z * conj z). *)
Definition Cnorm2 (z : complex) : R := Cre z * Cre z + Cim z * Cim z.

(** [jnp.abs] on a complex scalar. *)
Definition Cabs (z : complex) : R := sqrt (Cnorm2 z).

(** A complex scalar divided by a real one. *)
Definition Cdiv_real (z : complex) (r : R) : complex := (Cre z / r, Cim z / r).

Record V2 (A : Type) : Type := mk2 { x0 : A; x1 : A }.
Record V3 (A : Type) : Type := mk3 { y0 : A; y1 : A; y2 : A }.
Arguments mk2 {A} _ _.
Arguments x0 {A} _.
Arguments x1 {A} _.
Arguments mk3 {A} _ _ _.
Arguments y0 {A} _.
Arguments y1 {A} _.
Arguments y2 {A} _.

(** A qutrit state is a complex 3-vector, an effective state a complex
    2-vector. *)
Abbreviation qutrit := (V3 complex) (only parsing).
Abbreviation qubit := (V2 complex) (only parsing).

(** EncoderParameters: the dict [weights] of main.py. *)
Abbreviation weights_t := (gmap string R) (only parsing).

(** [v[1:3]] on a 3-vector. *)
Definition slice_1_3 (v : qutrit) : qubit := mk2 (y1 v) (y2 v).

(** *** float32

    Rounding to the nearest integer, ties to the even one. *)
Definition rne (y : R) : Z :=
  let f := Int_part y in
  let d := y - IZR f in
  if Rlt_dec d (1 / 2) then f
  else if Rlt_dec (1 / 2) d then (f + 1)%Z
  else if Z.even f then f else (f + 1)%Z.

(** The binade of a non-zero number: 2^(mag x - 1) <= |x| < 2^(mag x). *)
Definition mag (x : R) : Z := (Int_part (ln (Rabs x) / ln 2) + 1)%Z.

(** The exponent of the unit in the last place: 24 bits of significand,
    and the spacing 2^-149 of the subnormal numbers at the bottom. *)
Definition f32_exp (x : R) : Z := Z.max (mag x - 24) (-149).

(** The float32 nearest to a real number (IEEE 754 binary32, round to
    nearest, ties to even, gradual underflow; no overflow). *)
Definition f32 (x : R) : R :=
  IZR (rne (x * powerRZ 2 (- f32_exp x))) * powerRZ 2 (f32_exp x).

(** real(z * conj(z)) as float32 computes it: each product and the sum are
    rounded. *)
Definition Cnorm2_f32 (z : complex) : R :=
  f32 (f32 (Cre z * Cre z) + f32 (Cim z * Cim z)).

(** [jnp.linalg.norm] on a complex 2-vector, which JAX computes as
    [sqrt(sum(real(x * conj(x))))] in float32: the squares of small
    components are rounded to zero before the root is taken. *)
Definition jnp_linalg_norm (v : qubit) : R :=
  f32 (sqrt (f32 (Cnorm2_f32 (x0 v) + Cnorm2_f32 (x1 v)))).

(** The Euclidean norm of a complex 2-vector, in exact arithmetic: the norm
    that the specification speaks of. *)
Definition euclidean_norm (v : qubit) : R := sqrt (Cnorm2 (x0 v) + Cnorm2 (x1 v)).

(** [v / r] for a 2-vector [v] and a real scalar [r]. *)
Definition vdiv (v : qubit) (r : R) : qubit :=
  mk2 (Cdiv_real (x0 v) r) (Cdiv_real (x1 v) r).

Definition zero2 : qubit := mk2 (0, 0) (0, 0).

(** [jax.lax.cond(pred, true_fun, false_fun, operand=None)]. *)
Definition lax_cond {A : Type} (pred : bool) (true_fun false_fun : unit → A)
    (operand : unit) : A :=
  if pred then true_fun operand else false_fun operand.

Fixpoint Rsum (xs : list R) : R :=
  match xs with
  | [] => 0
  | x :: xs' => x + Rsum xs'
  end.

(** [jnp.mean] on a one-dimensional array.  On the empty array JAX yields
    NaN: statements about means are made for non-empty arrays. *)
Definition jnp_mean (xs : list R) : R := Rsum xs / INR (length xs).

(** A 4-tuple of scalars, as returned by [compute_loss] and
    [compute_loss_batch]. *)
Abbreviation quad := (R * R * R * R)%type (only parsing).

Definition q_total (q : quad) : R := q.1.1.1.
Definition q_cloning (q : quad) : R := q.1.1.2.
Definition q_FA (q : quad) : R := q.1.2.
Definition q_FB (q : quad) : R := q.2.

(** [jax.vmap] of a function that returns a 4-tuple: the tuple of the four
    arrays of per-sample results. *)
Definition jax_vmap {A : Type} (f : A → quad) (xs : list A)
    : list R * list R * list R * list R :=
  (map (λ x, q_total (f x)) xs, map (λ x, q_cloning (f x)) xs,
   map (λ x, q_FA (f x)) xs, map (λ x, q_FB (f x)) xs).

(** ** The imported modules *)

Record Imports : Type := {
  Unitary : Type;
  Rho2 : Type;
  Rho3 : Type;
  Rho4 : Type;
  (* encoder.encode_qutrit(state, weights) -> (encoded_state, unitary) *)
  encode_qutrit : qutrit → weights_t → qutrit * Unitary;
  (* cloning.buzek_hillery_clone(psi) -> (rho_AB, rho_A, rho_B) *)
  buzek_hillery_clone : qubit → Rho4 * Rho2 * Rho2;
  (* embed.embed(rho) *)
  embed : Rho2 → Rho3;
  (* decoder.decode_qubit_to_qutrit(rho, unitary) *)
  decode_qubit_to_qutrit : Rho3 → Unitary → Rho3;
  (* loss.fidelity(psi, rho) *)
  fidelity : qutrit → Rho3 → R
}.

(** ** compute_loss *)

Section Pipeline.

Context (I : Imports).

(** The local variables of one call of [compute_loss], in the order in
    which the body binds them. *)
Record loss_frame : Type := {
  encoded_state : qutrit;
  encoder_unitary : Unitary I;
  occupation_loss : R;
  effective_part : qubit;
  norm_eff : R;
  effective_psi : qubit;
  rho_A : Rho2 I;
  rho_B : Rho2 I;
  decoded_rho_A : Rho3 I;
  decoded_rho_B : Rho3 I;
  F_A : R;
  F_B : R;
  cloning_loss : R;
  total_loss : R
}.

(** [beta] is a Python float and [beta - 1.0] a Python subtraction;
    [jnp.abs] turns the difference into a float32, and the comparison with
    the Python float [1e-6] is made in float32. *)
Definition compute_loss_frame (weights : weights_t) (qutrit_state : qutrit)
    (beta : R) : loss_frame :=
  let '(encoded_state, encoder_unitary) := encode_qutrit I qutrit_state weights in
  let occupation_loss := Cabs (y0 encoded_state) ^ 2 in
  let effective_part := slice_1_3 encoded_state in
  let norm_eff := jnp_linalg_norm effective_part in
  let effective_psi :=
    lax_cond (bool_decide (norm_eff > 0))
             (λ _, vdiv effective_part norm_eff)
             (λ _, effective_part)
             () in
  let '(rho_AB, rho_A, rho_B) := buzek_hillery_clone I effective_psi in
  let rho_A_embed := embed I rho_A in
  let rho_B_embed := embed I rho_B in
  let decoded_rho_A := decode_qubit_to_qutrit I rho_A_embed encoder_unitary in
  let decoded_rho_B := decode_qubit_to_qutrit I rho_B_embed encoder_unitary in
  let F_A := fidelity I qutrit_state decoded_rho_A in
  let F_B := fidelity I qutrit_state decoded_rho_B in
  let cloning_loss := 1 - F_A - F_B + (F_A - F_B) ^ 2 in
  let total_loss :=
    lax_cond (bool_decide (f32 (Rabs (beta - 1.0)) < f32 1e-6))
             (λ _, occupation_loss)
             (λ _, cloning_loss + beta * occupation_loss)
             () in
  {| encoded_state := encoded_state; encoder_unitary := encoder_unitary;
     occupation_loss := occupation_loss; effective_part := effective_part;
     norm_eff := norm_eff; effective_psi := effective_psi;
     rho_A := rho_A; rho_B := rho_B;
     decoded_rho_A := decoded_rho_A; decoded_rho_B := decoded_rho_B;
     F_A := F_A; F_B := F_B;
     cloning_loss := cloning_loss; total_loss := total_loss |}.

(** [return total_loss, cloning_loss, F_A, F_B] *)
Definition compute_loss (weights : weights_t) (qutrit_state : qutrit) (beta : R)
    : quad :=
  let fr := compute_loss_frame weights qutrit_state beta in
  (total_loss fr, cloning_loss fr, F_A fr, F_B fr).

(** ** compute_loss_batch and total_loss_for_grad *)

Definition compute_loss_batch (weights : weights_t)
    (batch_qutrit_states : list qutrit) (beta : R) : quad :=
  let loss_fn := jax_vmap (λ state, compute_loss weights state beta) in
  let losses := loss_fn batch_qutrit_states in
  let '(losses, cloning_losses, F_A, F_B) := losses in
  (jnp_mean losses, jnp_mean cloning_losses, jnp_mean F_A, jnp_mean F_B).

Definition total_loss_for_grad (weights : weights_t)
    (batch_qutrit_states : list qutrit) (beta : R) : R :=
  let '(total_loss, _, _, _) := compute_loss_batch weights batch_qutrit_states beta in
  total_loss.

End Pipeline.

Arguments encoded_state {I} _.
Arguments encoder_unitary {I} _.
Arguments occupation_loss {I} _.
Arguments effective_part {I} _.
Arguments norm_eff {I} _.
Arguments effective_psi {I} _.
Arguments rho_A {I} _.
Arguments rho_B {I} _.
Arguments decoded_rho_A {I} _.
Arguments decoded_rho_B {I} _.
Arguments F_A {I} _.
Arguments F_B {I} _.
Arguments cloning_loss {I} _.
Arguments total_loss {I} _.

(** ** Python values that train needs *)

Inductive py_exception : Type := ZeroDivisionError.

Inductive result (A : Type) : Type :=
  | Ok (a : A)
  | Raise (e : py_exception).
Arguments Ok {A} _.
Arguments Raise {A} _.

#[global] Instance result_ret : MRet result := λ A a, Ok a.
#[global] Instance result_bind : MBind result := λ A B f r,
  match r with
  | Ok a => f a
  | Raise e => Raise e
  end.

(** [x / n] where [n] is a Python int: the division raises when [n] is 0
    (both operands of [epoch_loss / num_batches] are then the int 0). *)
Definition py_truediv (x : R) (n : nat) : result R :=
  match n with
  | O => Raise ZeroDivisionError
  | S _ => Ok (x / INR n)
  end.

(** [str(i)] on a non-negative int. *)
Definition py_str (i : nat) : string := pretty i.

(** A float32 scalar as JAX returns it: a number, or NaN or an infinity. *)
Inductive jax_scalar : Type :=
  | Finite (x : R)
  | NotFinite.

(** Products and differences: NaN and the infinities propagate, and
    [0 * NaN] and [0 * inf] are NaN. *)
Definition js_mul (a b : jax_scalar) : jax_scalar :=
  match a, b with
  | Finite x, Finite y => Finite (x * y)
  | _, _ => NotFinite
  end.

Definition js_sub (a b : jax_scalar) : jax_scalar :=
  match a, b with
  | Finite x, Finite y => Finite (x - y)
  | _, _ => NotFinite
  end.

(** ** update_step and train *)

Section Training.

Context (I : Imports).

(** The derivative that [jax.grad] computes, where it is a number:
    [d_dw f w k] is the partial derivative of [f] at [w] along the entry of
    key [k].  [update_step] and [train] below describe the runs in which
    every gradient is a number; [update_step_jax] is the step without that
    restriction. *)
Variable d_dw : (weights_t → R) → weights_t → string → R.

(** The draws of [np.random.randn()], numbered from the call of [train]. *)
Variable randn : nat → R.

(** [jax.grad(f, argnums=0)] on a dict argument: a dict with the keys of
    the argument. *)
Definition jax_grad (f : weights_t → R) (w : weights_t) : weights_t :=
  map_imap (λ k _, Some (d_dw f w k)) w.

(** [jax.tree_map(f, a, b)] on two dicts with the same keys. *)
Definition jax_tree_map (f : R → R → R) (a b : weights_t) : weights_t :=
  map_zip_with f a b.

Definition grad_fn (weights : weights_t) (batch : list qutrit) (beta : R)
    : weights_t :=
  jax_grad (λ w, total_loss_for_grad I w batch beta) weights.

Definition update_step (learning_rate : R) (weights : weights_t)
    (batch : list qutrit) (beta : R) : weights_t :=
  let grads := grad_fn weights batch beta in
  jax_tree_map (λ w g, w - learning_rate * g) weights grads.

(** [{str(i): float(np.random.randn()) for i in range(1, 9)}] *)
Definition init_weights : weights_t :=
  foldl (λ d i, <[py_str i := randn (Nat.pred i)]> d) ∅ (seq 1 8).

(** The variables that the loop over the batches of one epoch updates. *)
Record loop_state : Type := {
  st_weights : weights_t;
  st_epoch_loss : R;
  st_num_batches : nat;
  st_epoch_cloning_loss : R;
  st_total_FA : R;
  st_total_FB : R
}.

Record histories : Type := {
  loss_history : list R;
  cloning_loss_history : list R;
  FA_history : list R;
  FB_history : list R
}.

(** The body of [for batch in dataloader]. *)
Definition batch_body (learning_rate beta : R) (st : loop_state)
    (batch : list qutrit) : loop_state :=
  let '(batch_loss, cloning_loss, F_A, F_B) :=
    compute_loss_batch I (st_weights st) batch beta in
  {| st_epoch_loss := st_epoch_loss st + batch_loss;
     st_epoch_cloning_loss := st_epoch_cloning_loss st + cloning_loss;
     st_total_FA := st_total_FA st + F_A;
     st_total_FB := st_total_FB st + F_B;
     st_num_batches := S (st_num_batches st);
     st_weights := update_step learning_rate (st_weights st) batch beta |}.

Definition epoch_start (weights : weights_t) : loop_state :=
  {| st_weights := weights; st_epoch_loss := 0; st_num_batches := 0;
     st_epoch_cloning_loss := 0; st_total_FA := 0; st_total_FB := 0 |}.

(** The body of [for epoch in range(num_epochs)]; [batches] is what the
    dataloader yields in this epoch.  The three prints are not modelled. *)
Definition epoch_body (learning_rate beta : R) (batches : list (list qutrit))
    (ts : weights_t * histories) : result (weights_t * histories) :=
  let st := foldl (batch_body learning_rate beta) (epoch_start ts.1) batches in
  avg_epoch_loss ← py_truediv (st_epoch_loss st) (st_num_batches st);
  avg_epoch_cloning_loss ← py_truediv (st_epoch_cloning_loss st) (st_num_batches st);
  avg_epoch_FA ← py_truediv (st_total_FA st) (st_num_batches st);
  avg_epoch_FB ← py_truediv (st_total_FB st) (st_num_batches st);
  mret (st_weights st,
        {| loss_history := loss_history ts.2 ++ [avg_epoch_loss];
           cloning_loss_history := cloning_loss_history ts.2 ++ [avg_epoch_cloning_loss];
           FA_history := FA_history ts.2 ++ [avg_epoch_FA];
           FB_history := FB_history ts.2 ++ [avg_epoch_FB] |}).

(** [dataloader e] is the list of batches of the [e]-th iteration over the
    dataloader (a shuffling loader yields another list each time). *)
Fixpoint epochs_loop (dataloader : nat → list (list qutrit))
    (learning_rate beta : R) (epoch remaining : nat)
    (ts : weights_t * histories) : result (weights_t * histories) :=
  match remaining with
  | O => Ok ts
  | S remaining' =>
      ts' ← epoch_body learning_rate beta (dataloader epoch) ts;
      epochs_loop dataloader learning_rate beta (S epoch) remaining' ts'
  end.

(** [num_epochs] is the number of iterations of [range(num_epochs)]. *)
Definition train (dataloader : nat → list (list qutrit)) (num_epochs : nat)
    (learning_rate beta : R)
    : result (weights_t * list R * list R * list R * list R) :=
  let weights := init_weights in
  let h0 := {| loss_history := []; cloning_loss_history := [];
               FA_history := []; FB_history := [] |} in
  ts ← epochs_loop dataloader learning_rate beta 0 num_epochs (weights, h0);
  mret (ts.1, loss_history ts.2, cloning_loss_history ts.2,
        FA_history ts.2, FB_history ts.2).

(** *** The run of train, described step by step

    These functions restate what the loops of [train] do, for use in the
    statements: the parameters after a list of batches, the metrics
    reported for each batch, the parameters at the start of each epoch, and
    the entry that each epoch appends to a history. *)

(** The parameters after one gradient step per batch. *)
Definition weights_after (learning_rate beta : R) (weights : weights_t)
    (batches : list (list qutrit)) : weights_t :=
  foldl (λ w batch, update_step learning_rate w batch beta) weights batches.

(** The metrics of each batch, each computed with the parameters as they
    stood before the step of that batch. *)
Fixpoint batch_reports (learning_rate beta : R) (weights : weights_t)
    (batches : list (list qutrit)) : list quad :=
  match batches with
  | [] => []
  | batch :: rest =>
      compute_loss_batch I weights batch beta
      :: batch_reports learning_rate beta
           (update_step learning_rate weights batch beta) rest
  end.

(** The parameters at the start of epoch [e]. *)
Fixpoint weights_at_epoch (dataloader : nat → list (list qutrit))
    (learning_rate beta : R) (e : nat) : weights_t :=
  match e with
  | O => init_weights
  | S e' =>
      weights_after learning_rate beta
        (weights_at_epoch dataloader learning_rate beta e') (dataloader e')
  end.

(** The sum over the batches of epoch [e] of one of the four batch metrics,
    divided by the number of batches. *)
Definition epoch_average (dataloader : nat → list (list qutrit))
    (learning_rate beta : R) (out : quad → R) (e : nat) : R :=
  Rsum (map out (batch_reports learning_rate beta
                   (weights_at_epoch dataloader learning_rate beta e)
                   (dataloader e)))
  / INR (length (dataloader e)).

Definition epoch_averages (dataloader : nat → list (list qutrit))
    (learning_rate beta : R) (out : quad → R) (first count : nat) : list R :=
  map (epoch_average dataloader learning_rate beta out) (seq first count).

(** A history record extended by the entries of [count] epochs. *)
Definition extend (dataloader : nat → list (list qutrit))
    (learning_rate beta : R) (h : histories) (first count : nat) : histories :=
  let avg out := epoch_averages dataloader learning_rate beta out first count in
  {| loss_history := loss_history h ++ avg q_total;
     cloning_loss_history := cloning_loss_history h ++ avg q_cloning;
     FA_history := FA_history h ++ avg q_FA;
     FB_history := FB_history h ++ avg q_FB |}.

(** The keys of the parameter dict. *)
Definition weight_keys : gset string :=
  list_to_set ["1"; "2"; "3"; "4"; "5"; "6"; "7"; "8"]%string.

(** *** The step on JAX scalars

    [d_dw_jax f w k] is the entry of key [k] of what [jax.grad] returns for
    [f] at [w]: the reverse pass works in float32, and an entry is NaN when
    a NaN or a product of zero and an infinity enters it. *)
Variable d_dw_jax : (weights_t → R) → weights_t → string → jax_scalar.

Definition grad_fn_jax (weights : weights_t) (batch : list qutrit) (beta : R)
    : gmap string jax_scalar :=
  map_imap
    (λ k _, Some (d_dw_jax (λ w, total_loss_for_grad I w batch beta) weights k))
    weights.

(** [jax.tree_map(lambda w, g: w - learning_rate * g, weights, grads)] *)
Definition update_step_jax (learning_rate : R) (weights : weights_t)
    (batch : list qutrit) (beta : R) : gmap string jax_scalar :=
  let grads := grad_fn_jax weights batch beta in
  map_zip_with (λ w g, js_sub (Finite w) (js_mul (Finite learning_rate) g))
    weights grads.

End Training.

(** ** A reference instance of the imported modules *)

Module Reference.

Definition Cadd (a b : complex) : complex := (Cre a + Cre b, Cim a + Cim b).
Definition Cmul (a b : complex) : complex :=
  (Cre a * Cre b - Cim a * Cim b, Cre a * Cim b + Cim a * Cre b).
Definition Cconj (a : complex) : complex := (Cre a, - Cim a).
Definition Cscale (r : R) (a : complex) : complex := (r * Cre a, r * Cim a).
Definition C0 : complex := (0, 0).
Definition C1 : complex := (1, 0).

Definition mat2 : Type := V2 (V2 complex).
Definition mat3 : Type := V3 (V3 complex).

Definition dot3 (u v : V3 complex) : complex :=
  Cadd (Cadd (Cmul (y0 u) (y0 v)) (Cmul (y1 u) (y1 v))) (Cmul (y2 u) (y2 v)).

Definition vmap3 {A B : Type} (f : A → B) (v : V3 A) : V3 B :=
  mk3 (f (y0 v)) (f (y1 v)) (f (y2 v)).

Definition transpose3 (m : mat3) : mat3 :=
  mk3 (vmap3 y0 m) (vmap3 y1 m) (vmap3 y2 m).

Definition mmul3 (a b : mat3) : mat3 :=
  let bt := transpose3 b in
  vmap3 (λ row, vmap3 (λ col, dot3 row col) bt) a.

Definition mvec3 (m : mat3) (v : V3 complex) : V3 complex :=
  vmap3 (λ row, dot3 row v) m.

Definition dagger3 (m : mat3) : mat3 :=
  vmap3 (vmap3 Cconj) (transpose3 m).

Definition identity3 : mat3 :=
  mk3 (mk3 C1 C0 C0) (mk3 C0 C1 C0) (mk3 C0 C0 C1).

(** Modelled from the spec: the module [encoder] is not in the source tree
    and section 4.1 leaves the parameterization of the unitary open.  This
    is the member U = identity, which section 8 names as the value at the
    all-zero parameter vector: the encoded state is the input state. *)
Definition encode_qutrit (state : qutrit) (weights : weights_t) : qutrit * mat3 :=
  (mvec3 identity3 state, identity3).

(** Modelled from the spec: the module [cloning] is not in the source tree.
    Sections 4.3 and 8 pin the two single-clone reductions to the symmetric
    universal 1-to-2 machine with self-fidelity 5/6, that is
    2/3 |psi><psi| + 1/6 Id for both clones; the joint matrix rho_AB, which
    [compute_loss] discards, is left out. *)
Definition buzek_hillery_clone (psi : qubit) : unit * mat2 * mat2 :=
  let entry (a b : complex) (d : R) : complex :=
    Cadd (Cscale (2 / 3) (Cmul a (Cconj b))) (d, 0) in
  let rho :=
    mk2 (mk2 (entry (x0 psi) (x0 psi) (1 / 6)) (entry (x0 psi) (x1 psi) 0))
        (mk2 (entry (x1 psi) (x0 psi) 0) (entry (x1 psi) (x1 psi) (1 / 6))) in
  ((), rho, rho).

(** Modelled from the spec: the module [embed] is not in the source tree.
    Section 4.4: the 2x2 matrix is the bottom-right block of the 3x3 one,
    whose row and column of index 0 are zero. *)
Definition embed (rho : mat2) : mat3 :=
  mk3 (mk3 C0 C0 C0)
      (mk3 C0 (x0 (x0 rho)) (x1 (x0 rho)))
      (mk3 C0 (x0 (x1 rho)) (x1 (x1 rho))).

(** Modelled from the spec: the module [decoder] is not in the source tree.
    Section 4.5: U^dagger . rho . U. *)
Definition decode_qubit_to_qutrit (rho : mat3) (U : mat3) : mat3 :=
  mmul3 (mmul3 (dagger3 U) rho) U.

(** Modelled from the spec: the module [loss] is not in the source tree.
    Section 4.6: the real part of <psi| rho |psi>. *)
Definition fidelity (psi : qutrit) (rho : mat3) : R :=
  Cre (dot3 (vmap3 Cconj psi) (mvec3 rho psi)).

Definition imports : Imports :=
  Build_Imports mat3 mat2 mat3 unit
    encode_qutrit buzek_hillery_clone embed decode_qubit_to_qutrit fidelity.

(** The reference encoder ignores the parameters, so every partial
    derivative of the loss is zero. *)
Definition d_dw (f : weights_t → R) (w : weights_t) (k : string) : R := 0.

(** A fixed sequence of draws. *)
Definition randn (i : nat) : R := INR i / 10.

(** The parameters that train starts from. *)
Definition w0 : weights_t := init_weights randn.

(** Basis states: (0,1,0) lies in the working subspace, (1,0,0) is pure
    leakage. *)
Definition e1 : qutrit := mk3 C0 C1 C0.
Definition e0 : qutrit := mk3 C1 C0 C0.

(** A loader that yields the same two batches in every epoch, and one that
    yields nothing. *)
Definition two_batches (epoch : nat) : list (list qutrit) := [[e1; e0]; [e1]].
Definition no_batches (epoch : nat) : list (list qutrit) := [].

(** A state whose components in the working subspace are (1e-25, 0): the
    square of 1e-25 is below the smallest positive float32. *)
Definition tiny : qutrit := mk3 C1 (1e-25, 0) C0.

(** What [jax.grad] returns under the reference encoder: the parameters do
    not enter the loss, and every entry of the gradient is the number 0. *)
Definition d_dw_jax (f : weights_t → R) (w : weights_t) (k : string) : jax_scalar :=
  Finite (d_dw f w k).

(** Modelled from the spec: a second member of the family of section 4.1,
    one that depends on a parameter.  The unitary is the phase factor
    diag(1, exp(i * weights["1"]), 1). *)
Definition phase3 (theta : R) : mat3 :=
  mk3 (mk3 C1 C0 C0) (mk3 C0 (cos theta, sin theta) C0) (mk3 C0 C0 C1).

Definition encode_phase (state : qutrit) (weights : weights_t) : qutrit * mat3 :=
  let U := phase3 (default 0 (weights !! "1"%string)) in
  (mvec3 U state, U).

Definition imports_phase : Imports :=
  Build_Imports mat3 mat2 mat3 unit
    encode_phase buzek_hillery_clone embed decode_qubit_to_qutrit fidelity.

(** Modelled from JAX: what [jax.grad] returns under the phase encoder on a
    batch that holds the state (1,0,0).  The effective part of the encoded
    state is (0, 0) and its norm 0.  [jax.vmap] turns the [lax.cond] on
    [norm_eff > 0] into a selection between the results of both branches,
    and the reverse pass sends the cotangent 0 of the branch that was not
    selected through [effective_part / norm_eff], where it is divided by
    the norm: 0 / 0 is NaN.  The NaN reaches the entry of key "1", on which
    the encoded state depends; the other keys are not used, and their
    entries are 0. *)
Definition d_dw_jax_phase_e0 (f : weights_t → R) (w : weights_t) (k : string)
    : jax_scalar :=
  if decide (k = "1"%string) then NotFinite else Finite 0.

End Reference.

(** ** QutritDataset

    The text file is taken as its list of numeric rows; a blank line is the
    empty row. *)

Inductive exception : Type :=
  | ValueError
  | IndexError
  | Propagated (e : py_exception).

Inductive outcome (A : Type) : Type :=
  | Returns (a : A)
  | Raises (e : exception).
Arguments Returns {A} _.
Arguments Raises {A} _.

#[global] Instance outcome_ret : MRet outcome := λ A a, Returns a.
#[global] Instance outcome_bind : MBind outcome := λ A B f r,
  match r with
  | Returns a => f a
  | Raises e => Raises e
  end.

(** A NumPy array of floats of one or of two dimensions; the rows of a
    two-dimensional array have one length. *)
Inductive ndarray : Type :=
  | Array1 (xs : list R)
  | Array2 (rows : list (list R)).

(** [np.loadtxt(file_path)]: blank lines are skipped, rows of different
    lengths are refused, and axes of length one are squeezed, so that a file
    of one row, or of one column, gives a one-dimensional array (a single
    number gives a zero-dimensional one, which [Array1] stands for as
    well), and a file without data an empty one-dimensional array. *)
Definition np_loadtxt (lines : list (list R)) : outcome ndarray :=
  match filter (λ row, (0 < length row)%nat) lines with
  | [] => Returns (Array1 [])
  | row :: rest =>
      if decide (Forall (λ row', length row' = length row) rest) then
        match rest with
        | [] => Returns (Array1 row)
        | _ :: _ =>
            if decide (length row = 1%nat)
            then Returns (Array1 (concat (row :: rest)))
            else Returns (Array2 (row :: rest))
        end
      else Raises ValueError
  end.

(** [row[a:b]] *)
Definition columns (a b : nat) (row : list R) : list R := take (b - a) (drop a row).

(** [re + 1j * im] on two rows, with NumPy's broadcasting: a row of length
    one is stretched to the length of the other, and any other difference
    of lengths is refused. *)
Definition add_1j (re im : list R) : outcome (list complex) :=
  match re, im with
  | _, [y] => Returns (map (λ x, (x, y)) re)
  | [x], _ => Returns (map (λ y, (x, y)) im)
  | _, _ =>
      if decide (length re = length im) then Returns (zip re im)
      else Raises ValueError
  end.

Fixpoint for_rows {A B : Type} (f : A → outcome B) (rows : list A)
    : outcome (list B) :=
  match rows with
  | [] => Returns []
  | row :: rest =>
      b ← f row;
      bs ← for_rows f rest;
      mret (b :: bs)
  end.

Record QutritDataset : Type := { states : list (list complex) }.

(** [QutritDataset.__init__]: [data[:, :3] + 1j * data[:, 3:6]]; indexing a
    one-dimensional array with two indices raises IndexError. *)
Definition QutritDataset_init (lines : list (list R)) : outcome QutritDataset :=
  data ← np_loadtxt lines;
  match data with
  | Array1 _ => Raises IndexError
  | Array2 rows =>
      states ← for_rows (λ row, add_1j (columns 0 3 row) (columns 3 6 row)) rows;
      mret {| states := states |}
  end.

(** The rows that [np.loadtxt] reads: the lines that are not blank. *)
Abbreviation nonblank lines := (filter (λ row, (0 < length row)%nat) lines).

(** The state of a row of at least six columns: column i is the real part
    and column 3 + i the imaginary part of component i. *)
Definition row_state (row : list R) : list complex :=
  [(nth 0 row 0, nth 3 row 0); (nth 1 row 0, nth 4 row 0); (nth 2 row 0, nth 5 row 0)].

(** [QutritDataset.__len__] *)
Definition QutritDataset_len (self : QutritDataset) : nat := length (states self).

(** [QutritDataset.__getitem__] on an int: [self.states[idx]], where a
    negative index counts from the end. *)
Definition QutritDataset_getitem (self : QutritDataset) (idx : Z)
    : outcome (list complex) :=
  let n := Z.of_nat (length (states self)) in
  let i := if decide (idx < 0)%Z then (idx + n)%Z else idx in
  if decide (0 ≤ i < n)%Z then
    match states self !! Z.to_nat i with
    | Some state => Returns state
    | None => Raises IndexError
    end
  else Raises IndexError.

(** [QutritDataset.test] *)
Definition QutritDataset_test (self : QutritDataset) : option unit := None.

(** A state array of three components, as the pipeline takes it. *)
Definition to_qutrit (state : list complex) : qutrit :=
  mk3 (nth 0 state (0, 0)) (nth 1 state (0, 0)) (nth 2 state (0, 0)).

Definition of_qutrit (q : qutrit) : list complex := [y0 q; y1 q; y2 q].

(** ** DataLoader *)

Fixpoint chunks_from {A : Type} (fuel batch_size : nat) (l : list A)
    : list (list A) :=
  match fuel with
  | O => []
  | S fuel' =>
      match l with
      | [] => []
      | _ :: _ =>
          take batch_size l :: chunks_from fuel' batch_size (drop batch_size l)
      end
  end.

(** Consecutive batches of [batch_size] samples, the last one shorter when
    the length is not a multiple ([drop_last] is off by default). *)
Definition chunks {A : Type} (batch_size : nat) (l : list A) : list (list A) :=
  chunks_from (length l) batch_size l.

Record loader (A : Type) : Type := {
  dl_dataset : list A;
  dl_batch_size : nat
}.
Arguments dl_dataset {A} _.
Arguments dl_batch_size {A} _.

(** [DataLoader(dataset, batch_size=batch_size, shuffle=True)]: the random
    sampler refuses a dataset without samples, the batch sampler a batch
    size that is not positive. *)
Definition DataLoader {A : Type} (dataset : list A) (batch_size : nat)
    : outcome (loader A) :=
  match dataset, batch_size with
  | [], _ => Raises ValueError
  | _, O => Raises ValueError
  | _, _ => Returns {| dl_dataset := dataset; dl_batch_size := batch_size |}
  end.

(** ** main

    The files and plots that main writes are not modelled, beyond the list
    of the unitaries saved so far; [Completed st] stands for reaching the
    final [np.save] with the dict [hyperparams_results st]. *)

#[global] Instance R_eq_dec : EqDecision R := Req_dec_T.

(** [d[key] = value] on a dict kept in insertion order. *)
Fixpoint dict_set {K V : Type} `{EqDecision K} (key : K) (value : V)
    (d : list (K * V)) : list (K * V) :=
  match d with
  | [] => [(key, value)]
  | (k, v) :: d' =>
      if decide (k = key) then (key, value) :: d'
      else (k, v) :: dict_set key value d'
  end.

Definition chi_list : list R := [0.85; 0.9; 0.95; 0.99].
Definition beta_list : list R := [1.0; 8.0].
Definition lr_list : list R := [0.01; 0.001].
Definition num_epochs : nat := 200.
Definition batch_size : nat := 100.

(** The hyperparameter combinations in the order in which the three nested
    loops of main visit them. *)
Definition grid : list (R * R * R) :=
  chi ← chi_list; beta ← beta_list; lr ← lr_list; [(chi, beta, lr)].

Section Main.

Context (I : Imports).
Variable d_dw : (weights_t → R) → weights_t → string → R.

(** The draws of [np.random.randn()], numbered from the seeding at import. *)
Variable randn : nat → R.

(** [shuffle k l] is the order in which iteration number [k] over a data
    loader (counted over the whole run) visits the samples [l]. *)
Variable shuffle : nat → list qutrit → list qutrit.

(** [files chi] is the content of the data file that main opens for [chi]. *)
Variable files : R → list (list R).

Record main_state : Type := {
  np_draws : nat;
  loader_iters : nat;
  unitary_files : list (R * R * R * Unitary I);
  hyperparams_results : list (R * R * R * histories)
}.

(** An exception ends the run; the files written before it stay. *)
Inductive run : Type :=
  | Completed (st : main_state)
  | Aborted (e : exception) (written : list (R * R * R * Unitary I)).

Fixpoint for_each {A : Type} (xs : list A) (body : A → main_state → run)
    (st : main_state) : run :=
  match xs with
  | [] => Completed st
  | x :: xs' =>
      match body x st with
      | Completed st' => for_each xs' body st'
      | Aborted e written => Aborted e written
      end
  end.

(** The batches of iteration number [k] over a loader. *)
Definition loader_batches (dataloader : loader qutrit) (k : nat)
    : list (list qutrit) :=
  chunks (dl_batch_size dataloader) (shuffle k (dl_dataset dataloader)).

(** The body of the innermost loop of main. *)
Definition trial (dataset : QutritDataset) (dataloader : loader qutrit)
    (chi beta lr : R) (st : main_state) : run :=
  match train I d_dw (λ i, randn (np_draws st + i)%nat)
              (λ e, loader_batches dataloader (loader_iters st + e)%nat)
              num_epochs lr beta with
  | Raise e => Aborted (Propagated e) (unitary_files st)
  | Ok (weights, loss_history, cloning_loss_history, FA_history, FB_history) =>
      match QutritDataset_getitem dataset 0 with
      | Raises e => Aborted e (unitary_files st)
      | Returns ref_state =>
          let '(_, encoder_unitary) := encode_qutrit I (to_qutrit ref_state) weights in
          Completed
            {| np_draws := np_draws st + 8;
               loader_iters := loader_iters st + num_epochs;
               unitary_files :=
                 dict_set (chi, beta, lr) encoder_unitary (unitary_files st);
               hyperparams_results :=
                 dict_set (chi, beta, lr)
                   {| loss_history := loss_history;
                      cloning_loss_history := cloning_loss_history;
                      FA_history := FA_history;
                      FB_history := FB_history |}
                   (hyperparams_results st) |}
      end
  end.

Definition main : run :=
  let hyperparams_results := [] in
  for_each chi_list
    (λ chi st,
       match QutritDataset_init (files chi) with
       | Raises e => Aborted e (unitary_files st)
       | Returns dataset =>
           match DataLoader (map to_qutrit (states dataset)) batch_size with
           | Raises e => Aborted e (unitary_files st)
           | Returns dataloader =>
               for_each beta_list
                 (λ beta st,
                    for_each lr_list
                      (λ lr st, trial dataset dataloader chi beta lr st) st)
                 st
           end
       end)
    {| np_draws := 0; loader_iters := 0; unitary_files := [];
       hyperparams_results := hyperparams_results |}.

End Main.

Arguments Completed {I} _.
Arguments Aborted {I} _ _.
Arguments np_draws {I} _.
Arguments loader_iters {I} _.
Arguments unitary_files {I} _.
Arguments hyperparams_results {I} _.

(** *** The run of main, described trial by trial *)

Section MainRun.

Context (I : Imports).
Variable d_dw : (weights_t → R) → weights_t → string → R.
Variable randn : nat → R.
Variable shuffle : nat → list qutrit → list qutrit.
Variable files : R → list (list R).

(** Trial number [j] (from 0, in the order of the loops) is recorded in
    [st]: it trained on the dataset of [chi], from the draws 8j to 8j + 7
    and with the loader iterations 200j to 200j + 199, and entry [j] of
    the results and of the saved unitaries is what that training returned. *)
Definition trial_done (j : nat) (chi beta lr : R) (st : main_state I) : Prop :=
  ∃ (ds : QutritDataset) (w : weights_t) (lh ch fa fb : list R) (ref : list complex),
    QutritDataset_init (files chi) = Returns ds ∧
    train I d_dw (λ i, randn (8 * j + i)%nat)
      (λ e, loader_batches shuffle
              {| dl_dataset := map to_qutrit (states ds); dl_batch_size := batch_size |}
              (num_epochs * j + e)%nat)
      num_epochs lr beta
    = Ok (w, lh, ch, fa, fb) ∧
    (length lh = num_epochs ∧ length ch = num_epochs ∧
     length fa = num_epochs ∧ length fb = num_epochs) ∧
    states ds !! 0%nat = Some ref ∧
    hyperparams_results st !! j
    = Some ((chi, beta, lr),
            {| loss_history := lh; cloning_loss_history := ch;
               FA_history := fa; FB_history := fb |}) ∧
    unitary_files st !! j
    = Some ((chi, beta, lr), (encode_qutrit I (to_qutrit ref) w).2).

(** The state of main after its first [n] trials. *)
Definition progress (n : nat) (st : main_state I) : Prop :=
  np_draws st = (8 * n)%nat ∧
  loader_iters st = (num_epochs * n)%nat ∧
  map fst (hyperparams_results st) = take n grid ∧
  map fst (unitary_files st) = take n grid ∧
  ∀ (j : nat) chi beta lr,
    (j < n)%nat → grid !! j = Some (chi, beta, lr) → trial_done j chi beta lr st.

End MainRun.

(** A reference run of main: every data file holds the same three rows of
    seven columns, and the loaders alternate between the order of the file
    and its reverse. *)
Module ReferenceRun.

Definition files (chi : R) : list (list R) :=
  [[0; 1; 0; 0; 0; 0; 1]; [1; 0; 0; 0; 0; 0; 0.5]; []; [0; 0; 0; 0; 0; 1; 0.25]].

Definition shuffle (k : nat) (l : list qutrit) : list qutrit :=
  if Nat.even k then l else reverse l.

(** The same files, except that the file of chi = 0.9 holds a single row. *)
Definition files_one_row (chi : R) : list (list R) :=
  if decide (chi = 0.9) then [[0; 1; 0; 0; 0; 0; 1]] else files chi.

(** A file of two rows of four columns. *)
Definition four_columns : list (list R) := [[1; 0; 0; 0.5]; [0; 1; 0; 0.25]].

End ReferenceRun.

(** * Properties *)

(** ** Rounding

    *** To the nearest integer *)

Lemma Int_part_bounds (y : R) : IZR (Int_part y) <= y < IZR (Int_part y) + 1.
Proof. destruct (base_Int_part y). lra. Qed.

Lemma IZR_lt_succ (a b : Z) : IZR a < IZR b + 1 → (a <= b)%Z.
Proof.
  intros H. assert (H' : IZR a < IZR (b + 1)) by (rewrite plus_IZR; lra).
  apply lt_IZR in H'. lia.
Qed.

Lemma rne_cases (y : R) :
  let f := Int_part y in
  (y - IZR f < 1 / 2 ∧ rne y = f)
  ∨ (1 / 2 < y - IZR f ∧ rne y = (f + 1)%Z)
  ∨ (y - IZR f = 1 / 2 ∧ rne y = (if Z.even f then f else (f + 1)%Z)).
Proof.
  intros f. unfold rne. fold f.
  destruct (Rlt_dec (y - IZR f) (1 / 2)); [by left|].
  destruct (Rlt_dec (1 / 2) (y - IZR f)); [right; by left|].
  right; right. split; [lra | done].
Qed.

Lemma rne_error (y : R) : Rabs (IZR (rne y) - y) <= 1 / 2.
Proof.
  pose proof (Int_part_bounds y) as Hb.
  destruct (rne_cases y) as [[Hd ->]|[[Hd ->]|[Hd ->]]].
  - apply Rabs_le. lra.
  - rewrite plus_IZR. apply Rabs_le. lra.
  - destruct (Z.even _); [|rewrite plus_IZR]; apply Rabs_le; lra.
Qed.

(** Rounding does not go above an integer that the argument does not pass
    by half, nor above an even one that it passes by exactly half. *)
Lemma rne_le (y : R) (n : Z) :
  y < IZR n + 1 / 2 ∨ (y = IZR n + 1 / 2 ∧ Z.even n = true) → (rne y <= n)%Z.
Proof.
  intros Hy. pose proof (Int_part_bounds y) as Hb.
  assert (Hf : (Int_part y <= n)%Z) by (apply IZR_lt_succ; lra).
  destruct (rne_cases y) as [[Hd ->]|[[Hd ->]|[Hd ->]]]; [done| |].
  - assert ((Int_part y + 1 <= n)%Z); [|done].
    apply IZR_lt_succ. rewrite plus_IZR. lra.
  - destruct (Z.even (Int_part y)) eqn:He; [done|].
    destruct (decide (Int_part y = n)) as [Heq|Hne]; [|lia].
    rewrite Heq in *. destruct Hy as [Hy|[_ Hy]]; [lra | congruence].
Qed.

Lemma rne_ge (y : R) (n : Z) : IZR n - 1 / 2 < y → (n <= rne y)%Z.
Proof.
  intros Hy. pose proof (Int_part_bounds y) as Hb.
  assert (Hf : (n - 1 <= Int_part y)%Z).
  { apply IZR_lt_succ. rewrite minus_IZR. lra. }
  destruct (rne_cases y) as [[Hd ->]|[[Hd ->]|[Hd ->]]].
  - apply IZR_lt_succ. lra.
  - lia.
  - destruct (Z.even (Int_part y)); [|lia]. apply IZR_lt_succ. lra.
Qed.

Lemma rne_IZR (n : Z) : rne (IZR n) = n.
Proof.
  apply Z.le_antisymm; [apply rne_le | apply rne_ge]; [left|]; lra.
Qed.

(** *** Powers of two *)

Lemma ln_2_pos : 0 < ln 2.
Proof. pose proof ln_lt_2. lra. Qed.

Lemma ln_pow2 (k : Z) : ln (powerRZ 2 k) = IZR k * ln 2.
Proof. rewrite powerRZ_Rpower by lra. unfold Rpower. apply ln_exp. Qed.

Lemma pow2_pos (k : Z) : 0 < powerRZ 2 k.
Proof. apply powerRZ_lt. lra. Qed.

Lemma pow2_lt (a b : Z) : (a < b)%Z → powerRZ 2 a < powerRZ 2 b.
Proof.
  intros H. rewrite !powerRZ_Rpower by lra.
  apply Rpower_lt; [lra | by apply IZR_lt].
Qed.

Lemma pow2_le (a b : Z) : (a <= b)%Z → powerRZ 2 a <= powerRZ 2 b.
Proof.
  intros H. destruct (decide (a = b)) as [->|]; [lra|].
  apply Rlt_le, pow2_lt. lia.
Qed.

Lemma pow2_lt_inv (a b : Z) : powerRZ 2 a < powerRZ 2 b → (a < b)%Z.
Proof.
  intros H. destruct (decide (a < b)%Z); [done|].
  pose proof (pow2_le b a ltac:(lia)). lra.
Qed.

Lemma pow2_add (a b : Z) : powerRZ 2 (a + b) = powerRZ 2 a * powerRZ 2 b.
Proof. apply powerRZ_add. lra. Qed.

(** *** The binade of a positive number *)

Lemma mag_spec (x : R) :
  0 < x → powerRZ 2 (mag x - 1) <= x < powerRZ 2 (mag x).
Proof.
  intros Hx. unfold mag. rewrite Rabs_right by lra.
  set (r := ln x / ln 2). pose proof (Int_part_bounds r) as Hb.
  pose proof ln_2_pos as H2.
  assert (Hex : x = exp (r * ln 2)).
  { replace (r * ln 2) with (ln x) by (unfold r; field; lra). by rewrite exp_ln. }
  clearbody r.
  replace (Int_part r + 1 - 1)%Z with (Int_part r) by lia.
  rewrite !powerRZ_Rpower by lra. unfold Rpower. rewrite plus_IZR, Hex.
  split.
  - destruct (Req_dec (IZR (Int_part r)) r) as [Heq|Hne].
    + rewrite Heq. lra.
    + apply Rlt_le, exp_increasing. nra.
  - apply exp_increasing. nra.
Qed.

Lemma mag_unique (x : R) (k : Z) :
  powerRZ 2 (k - 1) <= x < powerRZ 2 k → mag x = k.
Proof.
  intros [Hlo Hhi].
  assert (Hx : 0 < x) by (pose proof (pow2_pos (k - 1)); lra).
  destruct (mag_spec x Hx) as [Hlo' Hhi'].
  assert ((k - 1 < mag x)%Z) by (apply pow2_lt_inv; lra).
  assert ((mag x - 1 < k)%Z) by (apply pow2_lt_inv; lra).
  lia.
Qed.

(** *** Rounding to float32 *)

Lemma f32_0 : f32 0 = 0.
Proof. unfold f32. rewrite Rmult_0_l, rne_IZR. lra. Qed.

Lemma f32_nonneg (x : R) : 0 <= x → 0 <= f32 x.
Proof.
  intros Hx. unfold f32. apply Rmult_le_pos; [|apply Rlt_le, pow2_pos].
  apply IZR_le, rne_ge. pose proof (pow2_pos (- f32_exp x)). nra.
Qed.

Lemma f32_binade (x : R) (k : Z) :
  powerRZ 2 (k - 1) <= x < powerRZ 2 k → (-125 <= k)%Z →
  f32 x = IZR (rne (x * powerRZ 2 (24 - k))) * powerRZ 2 (k - 24).
Proof.
  intros Hx Hk. unfold f32, f32_exp. rewrite (mag_unique x k Hx).
  rewrite Z.max_l by lia. by replace (- (k - 24))%Z with (24 - k)%Z by lia.
Qed.

Lemma f32_underflow (x : R) : 0 <= x < powerRZ 2 (-150) → f32 x = 0.
Proof.
  intros [Hlo Hhi]. destruct (Req_dec x 0) as [->|Hne]; [apply f32_0|].
  assert (Hx : 0 < x) by lra. destruct (mag_spec x Hx) as [Hm _].
  assert ((mag x - 1 < -150)%Z) by (apply pow2_lt_inv; lra).
  unfold f32, f32_exp. rewrite Z.max_r by lia.
  assert (Hy : 0 <= x * powerRZ 2 (- -149) < 1 / 2).
  { pose proof (pow2_pos (- -149)) as Hp. split; [nra|].
    apply Rlt_le_trans with (powerRZ 2 (-150) * powerRZ 2 (- -149)); [nra|].
    rewrite <- pow2_add. simpl. lra. }
  assert (Hr : rne (x * powerRZ 2 (- -149)) = 0%Z).
  { apply Z.le_antisymm; [apply rne_le; left; lra | apply rne_ge; lra]. }
  rewrite Hr. lra.
Qed.

(** Half an ulp of error, where an ulp is at most 2^-23 of the number. *)
Lemma f32_error (x : R) :
  Rabs (f32 x - x) <= powerRZ 2 (f32_exp x) / 2.
Proof.
  unfold f32. set (e := f32_exp x).
  pose proof (pow2_pos e) as Hp. pose proof (rne_error (x * powerRZ 2 (- e))) as Hr.
  assert (Hinv : powerRZ 2 (- e) * powerRZ 2 e = 1).
  { rewrite <- pow2_add. replace (- e + e)%Z with 0%Z by lia. done. }
  replace (IZR (rne (x * powerRZ 2 (- e))) * powerRZ 2 e - x)
    with ((IZR (rne (x * powerRZ 2 (- e))) - x * powerRZ 2 (- e)) * powerRZ 2 e)
    by (rewrite Rmult_minus_distr_r, Rmult_assoc, Hinv; lra).
  rewrite Rabs_mult, (Rabs_right (powerRZ 2 e)) by lra. nra.
Qed.

Lemma f32_ulp_normal (x : R) :
  powerRZ 2 (-126) <= x → powerRZ 2 (f32_exp x) <= x * powerRZ 2 (-23).
Proof.
  intros Hx. assert (H0 : 0 < x) by (pose proof (pow2_pos (-126)); lra).
  destruct (mag_spec x H0) as [Hlo Hhi].
  assert ((-126 < mag x)%Z) by (apply pow2_lt_inv; lra).
  unfold f32_exp. rewrite Z.max_l by lia.
  replace (mag x - 24)%Z with ((mag x - 1) + -23)%Z by lia.
  rewrite pow2_add. pose proof (pow2_pos (-23)). nra.
Qed.

Lemma f32_ulp_small (x : R) :
  0 < x < powerRZ 2 (-126) → f32_exp x = (-149)%Z.
Proof.
  intros [H0 Hx]. destruct (mag_spec x H0) as [Hlo Hhi].
  assert ((mag x - 1 < -126)%Z) by (apply pow2_lt_inv; lra).
  unfold f32_exp. lia.
Qed.

Lemma pow2_m43 : powerRZ 2 (-43) = / 8796093022208.
Proof. unfold powerRZ. simpl. lra. Qed.
Lemma pow2_43 : powerRZ 2 43 = 8796093022208.
Proof. unfold powerRZ. simpl. lra. Qed.
Lemma pow2_m20 : powerRZ 2 (-20) = / 1048576.
Proof. unfold powerRZ. simpl. lra. Qed.
Lemma pow2_m19 : powerRZ 2 (-19) = / 524288.
Proof. unfold powerRZ. simpl. lra. Qed.
Lemma pow2_m23 : powerRZ 2 (-23) = / 8388608.
Proof. unfold powerRZ. simpl. lra. Qed.

Lemma Rabs_le_inv (x a : R) : Rabs x <= a → - a <= x <= a.
Proof. unfold Rabs. destruct (Rcase_abs x); lra. Qed.

Lemma f32_binade_m19 (a : R) :
  / 1048576 <= a < / 524288 →
  f32 a = IZR (rne (a * 8796093022208)) * / 8796093022208.
Proof.
  intros Ha. rewrite (f32_binade a (-19)); [| |lia].
  2:{ rewrite pow2_m19. change (-19 - 1)%Z with (-20)%Z. rewrite pow2_m20. lra. }
  change (24 - -19)%Z with 43%Z. change (-19 - 24)%Z with (-43)%Z.
  by rewrite pow2_43, pow2_m43.
Qed.

Lemma f32_1e6 : f32 1e-6 = 8796093 / 8796093022208.
Proof.
  rewrite f32_binade_m19 by lra.
  assert (Hr : rne (1e-6 * 8796093022208) = 8796093%Z).
  { apply Z.le_antisymm; [apply rne_le; left | apply rne_ge]; lra. }
  rewrite Hr. lra.
Qed.

(** The float32 comparison with 1e-6, as a threshold on the real number:
    the floats below float32(1e-6) = 8796093 * 2^-43 are those up to
    8796092 * 2^-43, and a number rounds to one of them exactly when it does
    not exceed the midpoint 8796092.5 * 2^-43 (the tie goes to the even
    8796092). *)
Lemma lt_f32_1e6 (a : R) :
  0 <= a → f32 a < f32 1e-6 ↔ a <= 17592185 / 17592186044416.
Proof.
  intros Ha. rewrite f32_1e6. split.
  - intros Hlt. destruct (Rle_dec a (17592185 / 17592186044416)) as [|Hgt]; [done|].
    exfalso. apply Rnot_le_lt in Hgt.
    destruct (Rlt_dec a (/ 524288)) as [Hb|Hb].
    + rewrite f32_binade_m19 in Hlt by lra.
      assert (Hr : (8796093 <= rne (a * 8796093022208))%Z) by (apply rne_ge; lra).
      apply IZR_le in Hr. lra.
    + apply Rnot_lt_le in Hb.
      assert (H126 : powerRZ 2 (-126) <= a).
      { pose proof (pow2_le (-126) (-19) ltac:(lia)) as Hp. rewrite pow2_m19 in Hp. lra. }
      pose proof (f32_ulp_normal a H126) as Hu. rewrite pow2_m23 in Hu.
      pose proof (f32_error a) as He. apply Rabs_le_inv in He. lra.
  - intros Hle. destruct (Rle_dec (/ 1048576) a) as [Hb|Hb].
    + rewrite f32_binade_m19 by lra.
      assert (Hr : (rne (a * 8796093022208) <= 8796092)%Z).
      { apply rne_le. destruct (Req_dec a (17592185 / 17592186044416)) as [->|Hne].
        - right. split; [lra | reflexivity].
        - left. lra. }
      apply IZR_le in Hr. lra.
    + apply Rnot_le_lt in Hb.
      destruct (Req_dec a 0) as [->|H0]; [rewrite f32_0; lra|].
      pose proof (f32_error a) as He. apply Rabs_le_inv in He.
      destruct (Rle_dec (powerRZ 2 (-126)) a) as [Hn|Hs].
      * pose proof (f32_ulp_normal a Hn) as Hu. rewrite pow2_m23 in Hu. lra.
      * apply Rnot_le_lt in Hs. rewrite f32_ulp_small in He by lra.
        pose proof (pow2_le (-149) (-43) ltac:(lia)) as Hp. rewrite pow2_m43 in Hp.
        lra.
Qed.

Lemma f32_1 : f32 1 = 1.
Proof.
  rewrite (f32_binade 1 1); [|simpl; lra|lia].
  change (24 - 1)%Z with 23%Z. change (1 - 24)%Z with (-23)%Z.
  replace (1 * powerRZ 2 23) with (IZR 8388608) by (unfold powerRZ; simpl; lra).
  rewrite rne_IZR, pow2_m23. lra.
Qed.

Lemma f32_underflow_sqr (a : R) : Rabs a <= 1e-23 → f32 (a * a) = 0.
Proof.
  intros Ha. apply Rabs_le_inv in Ha. apply f32_underflow.
  assert (Hp : 1e-46 < powerRZ 2 (-150)) by (unfold powerRZ; simpl; lra).
  split; nra.
Qed.

(** ** Arithmetic of the primitives *)

Lemma Cnorm2_nonneg (z : complex) : 0 <= Cnorm2 z.
Proof. unfold Cnorm2. nra. Qed.

Lemma Cabs_sqr (z : complex) : Cabs z ^ 2 = Cnorm2 z.
Proof.
  unfold Cabs. simpl. rewrite Rmult_1_r.
  apply sqrt_sqrt, Cnorm2_nonneg.
Qed.

Lemma Cnorm2_f32_zero : Cnorm2_f32 (0, 0) = 0.
Proof.
  unfold Cnorm2_f32, Cre, Cim. cbn [fst snd].
  by rewrite Rmult_0_l, f32_0, Rplus_0_l, f32_0.
Qed.

Lemma Cnorm2_f32_one : Cnorm2_f32 (1, 0) = 1.
Proof.
  unfold Cnorm2_f32, Cre, Cim. cbn [fst snd].
  by rewrite Rmult_1_l, Rmult_0_l, f32_0, f32_1, Rplus_0_r, f32_1.
Qed.

(** A component of modulus up to 1e-23 contributes nothing to the computed
    norm. *)
Lemma Cnorm2_f32_underflow (z : complex) :
  Rabs (Cre z) <= 1e-23 → Rabs (Cim z) <= 1e-23 → Cnorm2_f32 z = 0.
Proof.
  intros Hre Him. unfold Cnorm2_f32.
  by rewrite !f32_underflow_sqr, Rplus_0_l, f32_0.
Qed.

Lemma jnp_linalg_norm_nonneg (v : qubit) : 0 <= jnp_linalg_norm v.
Proof. apply f32_nonneg, sqrt_pos. Qed.

Lemma jnp_linalg_norm_zero2 : jnp_linalg_norm zero2 = 0.
Proof.
  unfold jnp_linalg_norm, zero2. cbn [x0 x1].
  by rewrite Cnorm2_f32_zero, Rplus_0_l, f32_0, sqrt_0, f32_0.
Qed.

Lemma jnp_linalg_norm_underflow (v : qubit) :
  Rabs (Cre (x0 v)) <= 1e-23 → Rabs (Cim (x0 v)) <= 1e-23 →
  Rabs (Cre (x1 v)) <= 1e-23 → Rabs (Cim (x1 v)) <= 1e-23 →
  jnp_linalg_norm v = 0.
Proof.
  intros H1 H2 H3 H4. unfold jnp_linalg_norm.
  by rewrite !Cnorm2_f32_underflow, Rplus_0_l, f32_0, sqrt_0, f32_0.
Qed.

(** The selector of compute_loss, as a condition on the real number
    |beta - 1.0|. *)
Lemma selector_threshold (beta : R) :
  f32 (Rabs (beta - 1.0)) < f32 1e-6
  ↔ Rabs (beta - 1.0) <= 17592185 / 17592186044416.
Proof. apply lt_f32_1e6, Rabs_pos. Qed.

Lemma selector_near (beta : R) :
  1 - 9.9999994e-7 <= beta <= 1 + 9.9999994e-7 →
  f32 (Rabs (beta - 1.0)) < f32 1e-6.
Proof.
  intros H. apply selector_threshold.
  unfold Rabs. destruct (Rcase_abs _); lra.
Qed.

Lemma selector_far (beta : R) :
  beta <= 1 - 9.9999995e-7 ∨ 1 + 9.9999995e-7 <= beta →
  ¬ f32 (Rabs (beta - 1.0)) < f32 1e-6.
Proof.
  intros H. rewrite selector_threshold.
  unfold Rabs. destruct (Rcase_abs _); lra.
Qed.

(** ** compute_loss *)

(** The frame, with the two calls that return tuples named. *)
Lemma compute_loss_frame_eq (I : Imports) (weights : weights_t) (s : qutrit) (beta : R) :
  let enc := (encode_qutrit I s weights).1 in
  let U := (encode_qutrit I s weights).2 in
  let part := slice_1_3 enc in
  let psi := if bool_decide (jnp_linalg_norm part > 0)
             then vdiv part (jnp_linalg_norm part) else part in
  let rA := (buzek_hillery_clone I psi).1.2 in
  let rB := (buzek_hillery_clone I psi).2 in
  let FA := fidelity I s (decode_qubit_to_qutrit I (embed I rA) U) in
  let FB := fidelity I s (decode_qubit_to_qutrit I (embed I rB) U) in
  let occ := Cabs (y0 enc) ^ 2 in
  let cl := 1 - FA - FB + (FA - FB) ^ 2 in
  compute_loss_frame I weights s beta =
  {| encoded_state := enc; encoder_unitary := U; occupation_loss := occ;
     effective_part := part; norm_eff := jnp_linalg_norm part;
     effective_psi := psi; rho_A := rA; rho_B := rB;
     decoded_rho_A := decode_qubit_to_qutrit I (embed I rA) U;
     decoded_rho_B := decode_qubit_to_qutrit I (embed I rB) U;
     F_A := FA; F_B := FB; cloning_loss := cl;
     total_loss := if bool_decide (f32 (Rabs (beta - 1.0)) < f32 1e-6)
                   then occ else cl + beta * occ |}.
Proof.
  unfold compute_loss_frame, lax_cond.
  destruct (encode_qutrit I s weights) as [enc U]. simpl.
  destruct (buzek_hillery_clone I _) as [[rAB rA] rB]. reflexivity.
Qed.

Ltac frame_fields :=
  unfold compute_loss, q_total, q_cloning, q_FA, q_FB;
  rewrite ?compute_loss_frame_eq;
  cbn [encoded_state encoder_unitary occupation_loss effective_part norm_eff
       effective_psi rho_A rho_B decoded_rho_A decoded_rho_B F_A F_B
       cloning_loss total_loss fst snd].

Section PipelineFacts.

Context (I : Imports).

Implicit Types (weights : weights_t) (s : qutrit) (beta : R).

Lemma total_loss_near weights s beta :
  f32 (Rabs (beta - 1.0)) < f32 1e-6 →
  total_loss (compute_loss_frame I weights s beta)
  = occupation_loss (compute_loss_frame I weights s beta).
Proof. intros H. frame_fields. by rewrite bool_decide_eq_true_2. Qed.

Lemma total_loss_far weights s beta :
  ¬ f32 (Rabs (beta - 1.0)) < f32 1e-6 →
  total_loss (compute_loss_frame I weights s beta)
  = cloning_loss (compute_loss_frame I weights s beta)
    + beta * occupation_loss (compute_loss_frame I weights s beta).
Proof. intros H. frame_fields. by rewrite bool_decide_eq_false_2. Qed.

(** C1, amended. For every parameter set, state and real beta, the total
    loss that compute_loss returns is the occupation loss when
    |beta - 1.0|, rounded to float32, is below float32(1e-6), and
    cloning_loss + beta * occupation_loss otherwise.  The first case is
    |beta - 1.0| <= 17592185 * 2^-44 (about 9.9999994e-7): the sum is
    returned for every beta with |beta - 1.0| >= 1e-6, and also for those
    between the two bounds. *)
Theorem compute_loss_selector weights s beta :
  let fr := compute_loss_frame I weights s beta in
  q_total (compute_loss I weights s beta) = total_loss fr ∧
  q_cloning (compute_loss I weights s beta) = cloning_loss fr ∧
  (f32 (Rabs (beta - 1.0)) < f32 1e-6
   ↔ Rabs (beta - 1.0) <= 17592185 / 17592186044416) ∧
  (Rabs (beta - 1.0) <= 17592185 / 17592186044416 →
     total_loss fr = occupation_loss fr) ∧
  (17592185 / 17592186044416 < Rabs (beta - 1.0) →
     total_loss fr = cloning_loss fr + beta * occupation_loss fr) ∧
  (Rabs (beta - 1.0) >= 1e-6 →
     total_loss fr = cloning_loss fr + beta * occupation_loss fr).
Proof.
  intros fr. subst fr.
  do 2 (split; [reflexivity|]).
  split; [apply selector_threshold|]. split; [|split].
  - intros H. by apply total_loss_near, selector_threshold.
  - intros H. apply total_loss_far. rewrite selector_threshold. lra.
  - intros H. apply total_loss_far. rewrite selector_threshold. lra.
Qed.

(** C3, amended. The state handed to the cloning channel is built from the
    components 1 and 2 of the encoded state.  The norm that decides is the
    one that jnp.linalg.norm computes in float32: when it is strictly
    positive, each component is divided by it; when it is zero, the
    sub-vector is handed on as it is.  The computed norm is never negative,
    so the two cases are all there is; it is zero for the zero vector,
    which is then passed through unchanged, and it is also zero for
    vectors whose components are not zero but so small that their squares
    round to zero. *)
Theorem effective_state_projection weights s beta :
  let fr := compute_loss_frame I weights s beta in
  let part := effective_part fr in
  let n := norm_eff fr in
  encoded_state fr = (encode_qutrit I s weights).1 ∧
  part = mk2 (y1 (encoded_state fr)) (y2 (encoded_state fr)) ∧
  n = jnp_linalg_norm part ∧
  rho_A fr = (buzek_hillery_clone I (effective_psi fr)).1.2 ∧
  rho_B fr = (buzek_hillery_clone I (effective_psi fr)).2 ∧
  0 <= n ∧
  (n > 0 →
     effective_psi fr
     = mk2 (Cre (x0 part) / n, Cim (x0 part) / n)
           (Cre (x1 part) / n, Cim (x1 part) / n)) ∧
  (n = 0 → effective_psi fr = part) ∧
  (part = zero2 → n = 0 ∧ effective_psi fr = zero2) ∧
  (Rabs (Cre (x0 part)) <= 1e-23 → Rabs (Cim (x0 part)) <= 1e-23 →
   Rabs (Cre (x1 part)) <= 1e-23 → Rabs (Cim (x1 part)) <= 1e-23 →
     n = 0 ∧ effective_psi fr = part).
Proof.
  intros fr part n. subst fr part n. frame_fields.
  do 5 (split; [reflexivity|]).
  split; [apply jnp_linalg_norm_nonneg|].
  split; [|split; [|split]].
  - intros H. by rewrite bool_decide_eq_true_2.
  - intros H. rewrite bool_decide_eq_false_2; [done | lra].
  - intros H. rewrite H, jnp_linalg_norm_zero2.
    split; [done|]. rewrite bool_decide_eq_false_2; [done | lra].
  - intros H1 H2 H3 H4. rewrite jnp_linalg_norm_underflow by done.
    split; [done|]. rewrite bool_decide_eq_false_2; [done | lra].
Qed.

(** C4. The occupation loss is the squared modulus of component 0 of the
    encoded state, and the cloning loss is 1 - F_A - F_B + (F_A - F_B)^2,
    where F_A and F_B are the fidelities, against the input state, of the
    two clones after embedding and decoding with the encoder's unitary. *)
Theorem loss_terms weights s beta :
  let fr := compute_loss_frame I weights s beta in
  let z := y0 (encode_qutrit I s weights).1 in
  occupation_loss fr = Cre z * Cre z + Cim z * Cim z ∧
  F_A fr = fidelity I s
             (decode_qubit_to_qutrit I (embed I (rho_A fr)) (encode_qutrit I s weights).2) ∧
  F_B fr = fidelity I s
             (decode_qubit_to_qutrit I (embed I (rho_B fr)) (encode_qutrit I s weights).2) ∧
  cloning_loss fr = 1 - F_A fr - F_B fr + (F_A fr - F_B fr) ^ 2 ∧
  compute_loss I weights s beta = (total_loss fr, cloning_loss fr, F_A fr, F_B fr).
Proof.
  intros fr z. subst fr z. frame_fields.
  split; [apply Cabs_sqr|]. by do 3 (split; [reflexivity|]).
Qed.

(** C2, amended. At beta = 1.0 the total loss is the occupation loss, and
    so it is at beta = 1.0 + 1e-7, which lies inside the tolerance; a beta
    past the tolerance, for instance beta = 1.0 + 1e-5, gives the sum
    cloning_loss + beta * occupation_loss. *)
Theorem selector_boundary weights s :
  let at_beta beta := compute_loss_frame I weights s beta in
  (∀ beta, q_total (compute_loss I weights s beta) = total_loss (at_beta beta)) ∧
  total_loss (at_beta 1.0) = occupation_loss (at_beta 1.0) ∧
  total_loss (at_beta (1.0 + 1e-7)) = occupation_loss (at_beta (1.0 + 1e-7)) ∧
  total_loss (at_beta (1.0 + 1e-5)) =
    cloning_loss (at_beta (1.0 + 1e-5)) + (1.0 + 1e-5) * occupation_loss (at_beta (1.0 + 1e-5)).
Proof.
  intros at_beta. subst at_beta. cbv beta.
  split; [reflexivity|]. split; [|split].
  - apply total_loss_near, selector_near. lra.
  - apply total_loss_near, selector_near. lra.
  - apply total_loss_far, selector_far. lra.
Qed.

End PipelineFacts.

(** ** compute_loss_batch *)

Lemma Rsum_app (xs ys : list R) : Rsum (xs ++ ys) = Rsum xs + Rsum ys.
Proof. induction xs as [|x xs IH]; simpl; [|rewrite IH]; lra. Qed.

Lemma Rsum_Permutation (xs ys : list R) : xs ≡ₚ ys → Rsum xs = Rsum ys.
Proof. induction 1; simpl; lra. Qed.

Lemma INR_length_pos {A : Type} (xs : list A) : xs ≠ [] → 0 < INR (length xs).
Proof.
  destruct xs as [|x xs]; [done|]. intros _.
  apply lt_0_INR. simpl. lia.
Qed.

Lemma jnp_mean_singleton (x : R) : jnp_mean [x] = x.
Proof. unfold jnp_mean. simpl. field. Qed.

(** The mean of a concatenation is the size-weighted average of the means. *)
Lemma jnp_mean_app (xs ys : list R) :
  xs ≠ [] → ys ≠ [] →
  jnp_mean (xs ++ ys)
  = (INR (length xs) * jnp_mean xs + INR (length ys) * jnp_mean ys)
    / INR (length xs + length ys).
Proof.
  intros Hx Hy. apply INR_length_pos in Hx, Hy.
  unfold jnp_mean. rewrite Rsum_app, length_app, plus_INR. field. lra.
Qed.

Section BatchFacts.

Context (I : Imports).

Implicit Types (weights : weights_t) (s : qutrit) (beta : R) (batch : list qutrit).

Lemma compute_loss_batch_eq weights batch beta :
  compute_loss_batch I weights batch beta
  = (jnp_mean (map (λ s, q_total (compute_loss I weights s beta)) batch),
     jnp_mean (map (λ s, q_cloning (compute_loss I weights s beta)) batch),
     jnp_mean (map (λ s, q_FA (compute_loss I weights s beta)) batch),
     jnp_mean (map (λ s, q_FB (compute_loss I weights s beta)) batch)).
Proof. reflexivity. Qed.

Lemma total_loss_for_grad_eq weights batch beta :
  total_loss_for_grad I weights batch beta
  = q_total (compute_loss_batch I weights batch beta).
Proof. reflexivity. Qed.

(** No sample interacts with another: the result does not depend on the
    order of the batch. *)
Lemma compute_loss_batch_Permutation weights b b' beta :
  b ≡ₚ b' → compute_loss_batch I weights b beta = compute_loss_batch I weights b' beta.
Proof.
  intros Hp. rewrite !compute_loss_batch_eq. unfold jnp_mean.
  rewrite !length_map, (Permutation_length Hp).
  assert (Hs : ∀ f : qutrit → R, Rsum (map f b) = Rsum (map f b'))
    by (intros f; apply Rsum_Permutation; by apply Permutation_map).
  by rewrite !Hs.
Qed.

(** C5. compute_loss_batch evaluates compute_loss on every state of the
    batch and returns the arithmetic mean of each of the four outputs; on a
    batch of one state it returns what compute_loss returns on that state;
    on the concatenation of two (non-empty) batches it returns the
    size-weighted average of the results on the two batches. *)
Theorem compute_loss_batch_mean weights beta batch s (b1 b2 : list qutrit) :
  b1 ≠ [] → b2 ≠ [] →
  let per_sample (b : list qutrit) := map (λ st, compute_loss I weights st beta) b in
  let avg (out : quad → R) (b : list qutrit) :=
    Rsum (map out (per_sample b)) / INR (length b) in
  let weighted (out : quad → R) :=
    (INR (length b1) * out (compute_loss_batch I weights b1 beta)
     + INR (length b2) * out (compute_loss_batch I weights b2 beta))
    / INR (length b1 + length b2) in
  compute_loss_batch I weights batch beta
    = (avg q_total batch, avg q_cloning batch, avg q_FA batch, avg q_FB batch) ∧
  compute_loss_batch I weights [s] beta = compute_loss I weights s beta ∧
  compute_loss_batch I weights (b1 ++ b2) beta
    = (weighted q_total, weighted q_cloning, weighted q_FA, weighted q_FB).
Proof.
  intros H1 H2 per_sample avg weighted. subst per_sample avg weighted. cbv beta.
  split; [|split].
  - rewrite compute_loss_batch_eq. unfold jnp_mean.
    by rewrite !map_map, !length_map.
  - rewrite compute_loss_batch_eq. cbn [map]. rewrite !jnp_mean_singleton.
    by destruct (compute_loss I weights s beta) as [[[a b] c] d].
  - rewrite !compute_loss_batch_eq. unfold q_total, q_cloning, q_FA, q_FB.
    cbn [fst snd]. rewrite !map_app.
    rewrite !jnp_mean_app, ?length_map; try done;
      by (intros Hnil; apply (f_equal length) in Hnil;
          rewrite length_map in Hnil; destruct b1, b2).
Qed.

End BatchFacts.

(** ** Bounded search over the epochs *)

Lemma batches_in_every_epoch_or_not {A : Type} (f : nat → list A) (n : nat) :
  (∀ e, (e < n)%nat → f e ≠ []) ∨ (∃ e, (e < n)%nat ∧ f e = []).
Proof.
  induction n as [|n [Hall|(e & He & Hnil)]].
  - left. intros e He. lia.
  - destruct (f n) as [|x xs] eqn:Hn.
    + right. exists n. split; [lia | done].
    + left. intros e He.
      destruct (decide (e = n)) as [->|]; [by rewrite Hn | apply Hall; lia].
  - right. exists e. split; [lia | done].
Qed.

(** ** update_step *)

Section TrainingFacts.

Context (I : Imports).
Variable d_dw : (weights_t → R) → weights_t → string → R.
Variable d_dw_jax : (weights_t → R) → weights_t → string → jax_scalar.
Variable randn : nat → R.

Implicit Types (weights w : weights_t) (lr beta : R) (batch : list qutrit)
  (batches : list (list qutrit)) (k : string).

Lemma jax_grad_lookup (f : weights_t → R) w k :
  jax_grad d_dw f w !! k = (λ _, d_dw f w k) <$> w !! k.
Proof. unfold jax_grad. rewrite map_lookup_imap. by destruct (w !! k). Qed.

Lemma update_step_lookup lr w batch beta k :
  update_step I d_dw lr w batch beta !! k
  = (λ x, x - lr * d_dw (λ w', total_loss_for_grad I w' batch beta) w k) <$> w !! k.
Proof.
  unfold update_step, jax_tree_map, grad_fn.
  rewrite map_lookup_zip_with, jax_grad_lookup. by destruct (w !! k).
Qed.

Lemma update_step_dom lr w batch beta :
  dom (update_step I d_dw lr w batch beta) = dom w.
Proof.
  apply set_eq. intros k. rewrite !elem_of_dom, update_step_lookup.
  by rewrite fmap_is_Some.
Qed.

Lemma grad_fn_jax_lookup w batch beta k :
  grad_fn_jax I d_dw_jax w batch beta !! k
  = (λ _, d_dw_jax (λ w', total_loss_for_grad I w' batch beta) w k) <$> w !! k.
Proof. unfold grad_fn_jax. rewrite map_lookup_imap. by destruct (w !! k). Qed.

Lemma update_step_jax_lookup lr w batch beta k :
  update_step_jax I d_dw_jax lr w batch beta !! k
  = (λ x, js_sub (Finite x)
            (js_mul (Finite lr)
               (d_dw_jax (λ w', total_loss_for_grad I w' batch beta) w k)))
    <$> w !! k.
Proof.
  unfold update_step_jax.
  rewrite map_lookup_zip_with, grad_fn_jax_lookup. by destruct (w !! k).
Qed.

Lemma update_step_jax_dom lr w batch beta :
  dom (update_step_jax I d_dw_jax lr w batch beta) = dom w.
Proof.
  apply set_eq. intros k. rewrite !elem_of_dom, update_step_jax_lookup.
  by rewrite fmap_is_Some.
Qed.

(** Where every entry of the gradient is a number, the step on JAX scalars
    is the step on numbers. *)
Lemma update_step_jax_finite lr w batch beta :
  (∀ k, is_Some (w !! k) →
     d_dw_jax (λ w', total_loss_for_grad I w' batch beta) w k
     = Finite (d_dw (λ w', total_loss_for_grad I w' batch beta) w k)) →
  update_step_jax I d_dw_jax lr w batch beta
  = Finite <$> update_step I d_dw lr w batch beta.
Proof.
  intros Hfin. apply map_eq. intros k.
  rewrite lookup_fmap, update_step_jax_lookup, update_step_lookup.
  destruct (w !! k) as [x|] eqn:Hk; [|done].
  cbn [fmap option_fmap option_map]. by rewrite Hfin.
Qed.


(** ** train *)

#[local] Abbreviation W dataloader lr beta :=
  (weights_at_epoch I d_dw randn dataloader lr beta).

Lemma init_weights_eq :
  init_weights randn
  = list_to_map [("1", randn 0); ("2", randn 1); ("3", randn 2); ("4", randn 3);
                 ("5", randn 4); ("6", randn 5); ("7", randn 6); ("8", randn 7)]%string.
Proof. reflexivity. Qed.

Lemma init_weights_dom : dom (init_weights randn) = weight_keys.
Proof. reflexivity. Qed.

Lemma weight_keys_size : size weight_keys = 8%nat.
Proof. reflexivity. Qed.

Lemma weights_after_dom lr beta batches w :
  dom (weights_after I d_dw lr beta w batches) = dom w.
Proof.
  revert w. unfold weights_after.
  induction batches as [|b bs IH]; intros w; [done|].
  cbn [foldl]. rewrite IH. apply update_step_dom.
Qed.

Lemma weights_at_epoch_dom dataloader lr beta e :
  dom (W dataloader lr beta e) = weight_keys.
Proof.
  induction e as [|e IH]; [apply init_weights_dom|].
  cbn [weights_at_epoch]. by rewrite weights_after_dom.
Qed.

Lemma batch_body_eq lr beta st batch :
  batch_body I d_dw lr beta st batch
  = let m := compute_loss_batch I (st_weights st) batch beta in
    {| st_weights := update_step I d_dw lr (st_weights st) batch beta;
       st_epoch_loss := st_epoch_loss st + q_total m;
       st_num_batches := S (st_num_batches st);
       st_epoch_cloning_loss := st_epoch_cloning_loss st + q_cloning m;
       st_total_FA := st_total_FA st + q_FA m;
       st_total_FB := st_total_FB st + q_FB m |}.
Proof.
  unfold batch_body.
  by destruct (compute_loss_batch I (st_weights st) batch beta) as [[[a b] c] d].
Qed.

(** The loop over the batches, from any state. *)
Lemma epoch_fold lr beta batches st :
  let fin := foldl (batch_body I d_dw lr beta) st batches in
  let reports := batch_reports I d_dw lr beta (st_weights st) batches in
  st_weights fin = weights_after I d_dw lr beta (st_weights st) batches ∧
  st_epoch_loss fin = st_epoch_loss st + Rsum (map q_total reports) ∧
  st_epoch_cloning_loss fin = st_epoch_cloning_loss st + Rsum (map q_cloning reports) ∧
  st_total_FA fin = st_total_FA st + Rsum (map q_FA reports) ∧
  st_total_FB fin = st_total_FB st + Rsum (map q_FB reports) ∧
  st_num_batches fin = (st_num_batches st + length batches)%nat.
Proof.
  revert st. induction batches as [|b bs IH]; intros st.
  - cbn. repeat split; try lra. lia.
  - specialize (IH (batch_body I d_dw lr beta st b)).
    cbn [foldl batch_reports map Rsum length weights_after] in *.
    rewrite batch_body_eq in IH. cbn [st_weights st_epoch_loss st_num_batches
      st_epoch_cloning_loss st_total_FA st_total_FB] in IH.
    destruct IH as (Hw & Hl & Hc & Ha & Hb & Hn).
    rewrite batch_body_eq. cbv zeta.
    repeat split; first [exact Hw | lra | lia].
Qed.

(** Batch number [i] of an epoch is reported with the parameters reached
    after the steps of the [i] batches before it. *)
Lemma batch_reports_lookup lr beta batches w (i : nat) :
  batch_reports I d_dw lr beta w batches !! i
  = (λ b, compute_loss_batch I (weights_after I d_dw lr beta w (take i batches)) b beta)
    <$> batches !! i.
Proof.
  revert w i. induction batches as [|b bs IH]; intros w [|i]; try done.
  cbn. apply IH.
Qed.

Lemma batch_reports_length lr beta batches w :
  length (batch_reports I d_dw lr beta w batches) = length batches.
Proof.
  revert w. induction batches as [|b bs IH]; intros w; [done|].
  cbn. by rewrite IH.
Qed.


(** One epoch that has batches: four divisions by the number of batches,
    four appends. *)
Lemma epoch_body_batches lr beta batches w (h : histories) :
  batches ≠ [] →
  let reports := batch_reports I d_dw lr beta w batches in
  let avg (out : quad → R) := Rsum (map out reports) / INR (length batches) in
  epoch_body I d_dw lr beta batches (w, h)
  = Ok (weights_after I d_dw lr beta w batches,
        {| loss_history := loss_history h ++ [avg q_total];
           cloning_loss_history := cloning_loss_history h ++ [avg q_cloning];
           FA_history := FA_history h ++ [avg q_FA];
           FB_history := FB_history h ++ [avg q_FB] |}).
Proof.
  intros Hne reports avg. subst reports avg. unfold epoch_body. cbn [fst snd].
  destruct (epoch_fold lr beta batches (epoch_start w)) as (Hw & Hl & Hc & Ha & Hb & Hn).
  cbn [epoch_start st_weights st_epoch_loss st_epoch_cloning_loss st_total_FA
       st_total_FB st_num_batches] in *.
  rewrite Hl, Hc, Ha, Hb, Hw, Hn, !Rplus_0_l. cbn [Nat.add].
  destruct batches as [|b bs]; [done|]. reflexivity.
Qed.

(** One epoch without batches: the first division raises. *)
Lemma epoch_body_no_batches lr beta (ts : weights_t * histories) :
  epoch_body I d_dw lr beta [] ts = Raise ZeroDivisionError.
Proof. reflexivity. Qed.

Lemma epochs_loop_batches dataloader lr beta (count : nat) :
  ∀ (first : nat) (h : histories),
    (∀ e, (first ≤ e < first + count)%nat → dataloader e ≠ []) →
    epochs_loop I d_dw dataloader lr beta first count (W dataloader lr beta first, h)
    = Ok (W dataloader lr beta (first + count),
          extend I d_dw randn dataloader lr beta h first count).
Proof.
  induction count as [|count IH]; intros first h Hne.
  - rewrite Nat.add_0_r. unfold extend, epoch_averages. cbn [seq map epochs_loop].
    rewrite !app_nil_r. by destruct h.
  - cbn [epochs_loop]. rewrite epoch_body_batches by (apply Hne; lia).
    cbn [mbind result_bind]. 
    change (weights_after I d_dw lr beta (W dataloader lr beta first) (dataloader first))
      with (W dataloader lr beta (S first)).
    rewrite IH by (intros e He; apply Hne; lia).
    replace (first + S count)%nat with (S first + count)%nat by lia.
    unfold extend, epoch_averages. cbn [seq map loss_history cloning_loss_history
      FA_history FB_history].
    by rewrite <- !app_assoc.
Qed.

Lemma epochs_loop_no_batches dataloader lr beta (count : nat) :
  ∀ (first : nat) (ts : weights_t * histories),
    (∃ e, (first ≤ e < first + count)%nat ∧ dataloader e = []) →
    epochs_loop I d_dw dataloader lr beta first count ts = Raise ZeroDivisionError.
Proof.
  induction count as [|count IH]; intros first [w h] (e & He & Hnil); [lia|].
  cbn [epochs_loop].
  destruct (dataloader first) as [|b bs] eqn:Hfirst; [done|].
  rewrite epoch_body_batches by done. cbn [mbind result_bind].
  apply IH. exists e. split; [|done].
  destruct (decide (e = first)) as [->|]; [congruence | lia].
Qed.

Lemma train_batches dataloader (num_epochs : nat) lr beta :
  (∀ e, (e < num_epochs)%nat → dataloader e ≠ []) →
  train I d_dw randn dataloader num_epochs lr beta
  = Ok (W dataloader lr beta num_epochs,
        epoch_averages I d_dw randn dataloader lr beta q_total 0 num_epochs,
        epoch_averages I d_dw randn dataloader lr beta q_cloning 0 num_epochs,
        epoch_averages I d_dw randn dataloader lr beta q_FA 0 num_epochs,
        epoch_averages I d_dw randn dataloader lr beta q_FB 0 num_epochs).
Proof.
  intros Hne. unfold train.
  change (init_weights randn) with (W dataloader lr beta 0).
  rewrite epochs_loop_batches by (intros e He; apply Hne; lia).
  reflexivity.
Qed.

Lemma train_no_batches dataloader (num_epochs : nat) lr beta :
  (∃ e, (e < num_epochs)%nat ∧ dataloader e = []) →
  train I d_dw randn dataloader num_epochs lr beta = Raise ZeroDivisionError.
Proof.
  intros (e & He & Hnil). unfold train.
  rewrite epochs_loop_no_batches; [done|]. exists e. split; [lia | done].
Qed.

Lemma epoch_averages_length dataloader lr beta out (first count : nat) :
  length (epoch_averages I d_dw randn dataloader lr beta out first count) = count.
Proof. unfold epoch_averages. by rewrite length_map, length_seq. Qed.

Lemma epoch_averages_lookup dataloader lr beta out (count e : nat) :
  (e < count)%nat →
  epoch_averages I d_dw randn dataloader lr beta out 0 count !! e
  = Some (epoch_average I d_dw randn dataloader lr beta out e).
Proof.
  intros He. unfold epoch_averages.
  by rewrite list_lookup_fmap, lookup_seq_lt.
Qed.

(** C8. When every epoch has at least one batch, train runs num_epochs
    epochs and returns the parameters reached after all of them together
    with four histories of length num_epochs; entry e of a history is the
    sum, over the batches of epoch e, of the batch-averaged metric, divided
    by the number of batches of that epoch. *)
Theorem train_histories dataloader (num_epochs : nat) lr beta :
  (∀ e, (e < num_epochs)%nat → dataloader e ≠ []) →
  ∃ (w : weights_t) (lh ch fa fb : list R),
    train I d_dw randn dataloader num_epochs lr beta = Ok (w, lh, ch, fa, fb) ∧
    w = W dataloader lr beta num_epochs ∧
    length lh = num_epochs ∧ length ch = num_epochs ∧
    length fa = num_epochs ∧ length fb = num_epochs ∧
    ∀ e, (e < num_epochs)%nat →
      let reports := batch_reports I d_dw lr beta (W dataloader lr beta e) (dataloader e) in
      let avg (out : quad → R) := Rsum (map out reports) / INR (length (dataloader e)) in
      lh !! e = Some (avg q_total) ∧ ch !! e = Some (avg q_cloning) ∧
      fa !! e = Some (avg q_FA) ∧ fb !! e = Some (avg q_FB).
Proof.
  intros Hne. eexists _, _, _, _, _.
  split; [by apply train_batches|].
  split; [reflexivity|].
  rewrite !epoch_averages_length. do 4 (split; [reflexivity|]).
  intros e He reports avg. subst reports avg.
  by rewrite !epoch_averages_lookup.
Qed.

(** C9. The parameter dict made at the start of train has the eight keys
    "1" to "8", each bound to one draw; a step keeps the keys of the dict it
    is given; so the dict has exactly these keys at the start of every
    epoch, after any number of batches of an epoch, and when train
    returns. *)
Theorem weights_keys dataloader lr beta :
  weight_keys = {["1"; "2"; "3"; "4"; "5"; "6"; "7"; "8"]}%string ∧
  size weight_keys = 8%nat ∧
  init_weights randn
    = list_to_map [("1", randn 0); ("2", randn 1); ("3", randn 2); ("4", randn 3);
                   ("5", randn 4); ("6", randn 5); ("7", randn 6); ("8", randn 7)]%string ∧
  dom (init_weights randn) = weight_keys ∧
  W dataloader lr beta 0 = init_weights randn ∧
  (∀ lr' w batch beta', dom (update_step I d_dw lr' w batch beta') = dom w) ∧
  (∀ e i : nat,
     dom (st_weights (foldl (batch_body I d_dw lr beta)
                            (epoch_start (W dataloader lr beta e))
                            (take i (dataloader e)))) = weight_keys) ∧
  (∀ (num_epochs : nat) r,
     train I d_dw randn dataloader num_epochs lr beta = Ok r →
     dom r.1.1.1.1 = weight_keys).
Proof.
  split; [reflexivity|]. split; [apply weight_keys_size|].
  split; [apply init_weights_eq|]. split; [apply init_weights_dom|].
  split; [reflexivity|].
  split; [intros; apply update_step_dom|]. split.
  - intros e i.
    destruct (epoch_fold lr beta (take i (dataloader e))
                (epoch_start (W dataloader lr beta e))) as (-> & _).
    cbn [epoch_start st_weights].
    by rewrite weights_after_dom, weights_at_epoch_dom.
  - intros num_epochs r Hr.
    destruct (batches_in_every_epoch_or_not dataloader num_epochs) as [Hne|Hex].
    + rewrite train_batches in Hr by done. injection Hr as <-. cbn [fst].
      apply weights_at_epoch_dom.
    + by rewrite train_no_batches in Hr.
Qed.

(** C10, amended. When every epoch has at least one batch the divisions
    are defined and train returns.  When some epoch among the num_epochs
    has no batch, in particular when num_epochs is at least 1 and the
    dataloader never yields a batch, train raises ZeroDivisionError at the
    division.  With num_epochs = 0 no division is executed and train
    returns the initial parameters and four empty histories. *)
Theorem train_division dataloader (num_epochs : nat) lr beta :
  ((∀ e, (e < num_epochs)%nat → dataloader e ≠ []) →
     ∃ r, train I d_dw randn dataloader num_epochs lr beta = Ok r) ∧
  ((∃ e, (e < num_epochs)%nat ∧ dataloader e = []) →
     train I d_dw randn dataloader num_epochs lr beta = Raise ZeroDivisionError) ∧
  ((0 < num_epochs)%nat → (∀ e, dataloader e = []) →
     train I d_dw randn dataloader num_epochs lr beta = Raise ZeroDivisionError) ∧
  train I d_dw randn dataloader 0 lr beta = Ok (init_weights randn, [], [], [], []).
Proof.
  split; [|split; [|split]].
  - intros Hne. eexists. by apply train_batches.
  - apply train_no_batches.
  - intros Hpos Hnil. apply train_no_batches. exists 0%nat. by split.
  - reflexivity.
Qed.

End TrainingFacts.

(** ** The reference instance, evaluated *)

Section ReferenceFacts.

Implicit Types (weights : weights_t) (beta : R).

Lemma mk3_eq {A : Type} (a b c a' b' c' : A) :
  a = a' → b = b' → c = c' → mk3 a b c = mk3 a' b' c'.
Proof. by intros -> -> ->. Qed.

Ltac ref_cbv :=
  cbv beta iota zeta delta
    [Reference.fidelity Reference.decode_qubit_to_qutrit Reference.embed
     Reference.buzek_hillery_clone Reference.encode_qutrit Reference.mvec3
     Reference.mmul3 Reference.dagger3 Reference.transpose3 Reference.vmap3
     Reference.dot3 Reference.identity3 Reference.Cadd Reference.Cmul
     Reference.Cconj Reference.Cscale Reference.C0 Reference.C1
     Reference.e0 Reference.e1 slice_1_3 vdiv Cdiv_real Cnorm2 Cre Cim
     y0 y1 y2 x0 x1 fst snd].

Ltac entrywise :=
  repeat first [apply mk3_eq | apply (f_equal2 (@pair R R))]; try lra.

Lemma encode_qutrit_id weights (s : qutrit) :
  encode_qutrit Reference.imports s weights = (s, Reference.identity3).
Proof.
  destruct s as [[a0 b0] [a1 b1] [a2 b2]].
  cbn [encode_qutrit Reference.imports]. unfold Reference.encode_qutrit.
  f_equal. ref_cbv. entrywise.
Qed.

Lemma decode_identity (rho : Reference.mat3) :
  Reference.decode_qubit_to_qutrit rho Reference.identity3 = rho.
Proof.
  destruct rho as [[[a00 b00] [a01 b01] [a02 b02]]
                   [[a10 b10] [a11 b11] [a12 b12]]
                   [[a20 b20] [a21 b21] [a22 b22]]].
  ref_cbv. entrywise.
Qed.

(** Against a basis state the fidelity is the real part of a diagonal
    entry. *)
Lemma fidelity_e1 (rho : Reference.mat3) :
  Reference.fidelity Reference.e1 rho = Cre (y1 (y1 rho)).
Proof.
  destruct rho as [[[a00 b00] [a01 b01] [a02 b02]]
                   [[a10 b10] [a11 b11] [a12 b12]]
                   [[a20 b20] [a21 b21] [a22 b22]]].
  ref_cbv. lra.
Qed.

Lemma fidelity_e0 (rho : Reference.mat3) :
  Reference.fidelity Reference.e0 rho = Cre (y0 (y0 rho)).
Proof.
  destruct rho as [[[a00 b00] [a01 b01] [a02 b02]]
                   [[a10 b10] [a11 b11] [a12 b12]]
                   [[a20 b20] [a21 b21] [a22 b22]]].
  ref_cbv. lra.
Qed.

Lemma norm_e1 : jnp_linalg_norm (slice_1_3 Reference.e1) = 1.
Proof.
  unfold jnp_linalg_norm. ref_cbv.
  by rewrite Cnorm2_f32_one, Cnorm2_f32_zero, Rplus_0_r, f32_1, sqrt_1, f32_1.
Qed.

Lemma norm_e0 : jnp_linalg_norm (slice_1_3 Reference.e0) = 0.
Proof. exact jnp_linalg_norm_zero2. Qed.

Ltac ref_frame :=
  frame_fields; rewrite !encode_qutrit_id; cbn [fst snd];
  rewrite ?norm_e1, ?norm_e0;
  rewrite ?bool_decide_eq_true_2, ?bool_decide_eq_false_2 by lra;
  rewrite ?Cabs_sqr;
  cbn [fidelity decode_qubit_to_qutrit embed buzek_hillery_clone Reference.imports];
  rewrite ?decode_identity, ?fidelity_e1, ?fidelity_e0.

Lemma frame_e1 weights beta :
  let fr := compute_loss_frame Reference.imports weights Reference.e1 beta in
  occupation_loss fr = 0 ∧ F_A fr = 5 / 6 ∧ F_B fr = 5 / 6 ∧
  cloning_loss fr = - (2 / 3).
Proof.
  intros fr. subst fr. ref_frame. ref_cbv. repeat split; lra.
Qed.

Lemma frame_e0 weights beta :
  let fr := compute_loss_frame Reference.imports weights Reference.e0 beta in
  occupation_loss fr = 1 ∧ norm_eff fr = 0 ∧ effective_psi fr = zero2 ∧
  F_A fr = 0 ∧ F_B fr = 0 ∧ cloning_loss fr = 1.
Proof.
  intros fr. subst fr. ref_frame. ref_cbv. repeat split; lra.
Qed.

(** The selector on the two basis states: with beta = 8 the total is
    cloning_loss + 8 * occupation_loss, with beta = 1 it is the occupation
    loss alone. *)
Example compute_loss_e1_beta_8 :
  compute_loss Reference.imports Reference.w0 Reference.e1 8.0
  = (- (2 / 3), - (2 / 3), 5 / 6, 5 / 6).
Proof.
  unfold compute_loss.
  rewrite total_loss_far by (apply selector_far; lra).
  destruct (frame_e1 Reference.w0 8.0) as (-> & -> & -> & ->).
  repeat f_equal. lra.
Qed.

Example compute_loss_e0_beta_8 :
  compute_loss Reference.imports Reference.w0 Reference.e0 8.0 = (9, 1, 0, 0).
Proof.
  unfold compute_loss.
  rewrite total_loss_far by (apply selector_far; lra).
  destruct (frame_e0 Reference.w0 8.0) as (-> & _ & _ & -> & -> & ->).
  repeat f_equal. lra.
Qed.

Example compute_loss_e1_beta_1 :
  compute_loss Reference.imports Reference.w0 Reference.e1 1.0
  = (0, - (2 / 3), 5 / 6, 5 / 6).
Proof.
  unfold compute_loss.
  rewrite total_loss_near by (apply selector_near; lra).
  by destruct (frame_e1 Reference.w0 1.0) as (-> & -> & -> & ->).
Qed.

Lemma compute_loss_selector_witness :
  let fr1 := compute_loss_frame Reference.imports Reference.w0 Reference.e1 1.0 in
  let fr8 := compute_loss_frame Reference.imports Reference.w0 Reference.e1 8.0 in
  total_loss fr1 = occupation_loss fr1 ∧
  total_loss fr8 = cloning_loss fr8 + 8.0 * occupation_loss fr8.
Proof.
  split.
  - apply (compute_loss_selector Reference.imports Reference.w0 Reference.e1 1.0).
    replace (1.0 - 1.0) with 0 by lra. rewrite Rabs_R0. lra.
  - apply (compute_loss_selector Reference.imports Reference.w0 Reference.e1 8.0).
    replace (8.0 - 1.0) with 7 by lra. rewrite Rabs_right; lra.
Defined.

(** C1, as the specification has it, fails: beta = 1.0 + 9.9999999e-7 is
    within 1e-6 of 1.0, but the difference rounds to float32(1e-6), which
    is not below float32(1e-6).  On the basis state (1,0,0), where the
    occupation loss is 1 and the cloning loss 1, compute_loss returns
    cloning_loss + beta * occupation_loss = 2.00000099999999, not the
    occupation loss. *)
Lemma compute_loss_selector_counterexample :
  let beta := 1.0 + 9.9999999e-7 in
  let fr := compute_loss_frame Reference.imports Reference.w0 Reference.e0 beta in
  Rabs (beta - 1.0) < 1e-6 ∧
  occupation_loss fr = 1 ∧
  q_total (compute_loss Reference.imports Reference.w0 Reference.e0 beta)
    = 2.00000099999999 ∧
  q_total (compute_loss Reference.imports Reference.w0 Reference.e0 beta)
    ≠ occupation_loss fr.
Proof.
  intros beta fr.
  assert (Hn : Rabs (beta - 1.0) < 1e-6).
  { unfold beta. replace (1.0 + 9.9999999e-7 - 1.0) with 9.9999999e-7 by lra.
    rewrite Rabs_right; lra. }
  assert (Hf : ¬ f32 (Rabs (beta - 1.0)) < f32 1e-6)
    by (apply selector_far; unfold beta; lra).
  pose proof (total_loss_far Reference.imports Reference.w0 Reference.e0 beta Hf) as Ht.
  destruct (frame_e0 Reference.w0 beta) as (Ho & _ & _ & _ & _ & Hc).
  cbv zeta in Ho, Hc.
  change (Rabs (beta - 1.0) < 1e-6 ∧ occupation_loss fr = 1 ∧
          total_loss fr = 2.00000099999999 ∧ total_loss fr ≠ occupation_loss fr).
  subst fr. rewrite Ht, Ho, Hc. unfold beta.
  split; [exact Hn|]. split; [reflexivity|]. split; lra.
Qed.

(** C2, as the specification has it, fails: 1.0 + 1e-7 is inside the
    tolerance, and on the basis state (0,1,0) the total loss is the
    occupation loss 0, not cloning_loss + beta * occupation_loss = -2/3. *)
Lemma selector_boundary_counterexample :
  let beta := 1.0 + 1e-7 in
  let fr := compute_loss_frame Reference.imports Reference.w0 Reference.e1 beta in
  q_total (compute_loss Reference.imports Reference.w0 Reference.e1 beta)
    ≠ cloning_loss fr + beta * occupation_loss fr.
Proof.
  intros beta fr.
  assert (Hn : f32 (Rabs (beta - 1.0)) < f32 1e-6)
    by (apply selector_near; unfold beta; lra).
  pose proof (total_loss_near Reference.imports Reference.w0 Reference.e1 beta Hn) as Ht.
  destruct (frame_e1 Reference.w0 beta) as (Ho & _ & _ & Hc). cbv zeta in Ho, Hc.
  change (total_loss fr ≠ cloning_loss fr + beta * occupation_loss fr).
  subst fr. rewrite Ht, Ho, Hc. lra.
Qed.

Lemma frame_tiny weights beta :
  let fr := compute_loss_frame Reference.imports weights Reference.tiny beta in
  effective_part fr = mk2 (1e-25, 0) (0, 0) ∧ norm_eff fr = 0 ∧
  effective_psi fr = mk2 (1e-25, 0) (0, 0).
Proof.
  intros fr. subst fr. frame_fields. rewrite !encode_qutrit_id. cbn [fst snd].
  assert (Hp : slice_1_3 Reference.tiny = mk2 (1e-25, 0) (0, 0)) by reflexivity.
  assert (Hn : jnp_linalg_norm (slice_1_3 Reference.tiny) = 0).
  { rewrite Hp. apply jnp_linalg_norm_underflow; cbn [x0 x1 Cre Cim fst snd];
      rewrite ?Rabs_R0; try lra.
    rewrite Rabs_right; lra. }
  rewrite Hn, bool_decide_eq_false_2 by lra. by rewrite Hp.
Qed.

Lemma effective_state_projection_witness :
  let fr1 := compute_loss_frame Reference.imports Reference.w0 Reference.e1 1.0 in
  let fr0 := compute_loss_frame Reference.imports Reference.w0 Reference.e0 1.0 in
  let frt := compute_loss_frame Reference.imports Reference.w0 Reference.tiny 1.0 in
  effective_psi fr1 = mk2 (1, 0) (0, 0) ∧
  effective_psi fr0 = zero2 ∧
  effective_psi frt = mk2 (1e-25, 0) (0, 0).
Proof.
  split; [|split].
  - destruct (effective_state_projection Reference.imports Reference.w0 Reference.e1 1.0)
      as (_ & _ & _ & _ & _ & _ & Hpos & _).
    cbv zeta in Hpos. rewrite Hpos.
    + frame_fields. rewrite encode_qutrit_id. cbn [fst]. rewrite norm_e1.
      ref_cbv. f_equal; f_equal; lra.
    + frame_fields. rewrite encode_qutrit_id. cbn [fst]. rewrite norm_e1. lra.
  - apply (effective_state_projection Reference.imports Reference.w0 Reference.e0 1.0).
    frame_fields. by rewrite encode_qutrit_id.
  - destruct (effective_state_projection Reference.imports Reference.w0 Reference.tiny 1.0)
      as (_ & _ & _ & _ & _ & _ & _ & Hzero & _).
    cbv zeta in Hzero. rewrite Hzero.
    + apply (frame_tiny Reference.w0 1.0).
    + apply (frame_tiny Reference.w0 1.0).
Defined.

(** C3, as the specification has it, fails: on the state
    (1, 1e-25, 0) the sub-vector (1e-25, 0) has the Euclidean norm 1e-25,
    which is strictly positive, but its square is rounded to zero, the
    computed norm is 0, and the sub-vector is handed to the cloning channel
    as it is, not divided by its norm. *)
Lemma effective_state_projection_counterexample :
  let fr := compute_loss_frame Reference.imports Reference.w0 Reference.tiny 1.0 in
  let part := effective_part fr in
  part = mk2 (y1 (encoded_state fr)) (y2 (encoded_state fr)) ∧
  euclidean_norm part = 1e-25 ∧
  euclidean_norm part > 0 ∧
  norm_eff fr = 0 ∧
  effective_psi fr = part ∧
  vdiv part (euclidean_norm part) = mk2 (1, 0) (0, 0) ∧
  effective_psi fr ≠ vdiv part (euclidean_norm part).
Proof.
  intros fr part.
  destruct (frame_tiny Reference.w0 1.0) as (Hp & Hn & Hpsi). cbv zeta in Hp, Hn, Hpsi.
  fold fr in Hp, Hn, Hpsi. fold part in Hp.
  assert (He : euclidean_norm part = 1e-25).
  { rewrite Hp. unfold euclidean_norm, Cnorm2. cbn [x0 x1 Cre Cim fst snd].
    replace (1e-25 * 1e-25 + 0 * 0 + (0 * 0 + 0 * 0)) with (1e-25 * 1e-25) by lra.
    apply sqrt_square. lra. }
  assert (Hv : vdiv part (euclidean_norm part) = mk2 (1, 0) (0, 0)).
  { rewrite He, Hp. unfold vdiv, Cdiv_real. cbn [x0 x1 Cre Cim fst snd].
    f_equal; f_equal; lra. }
  split; [|split; [|split; [|split; [|split; [|split]]]]].
  - subst part fr. by frame_fields.
  - exact He.
  - rewrite He. lra.
  - exact Hn.
  - by rewrite Hpsi, Hp.
  - exact Hv.
  - rewrite Hv, Hpsi. intros Heq. injection Heq as Heq. lra.
Qed.

Lemma compute_loss_batch_mean_witness :
  let b1 := [Reference.e1; Reference.e0] in
  let b2 := [Reference.e1] in
  let on b := compute_loss_batch Reference.imports Reference.w0 b 8.0 in
  let weighted (out : quad → R) :=
    (INR (length b1) * out (on b1) + INR (length b2) * out (on b2))
    / INR (length b1 + length b2) in
  on [Reference.e0] = compute_loss Reference.imports Reference.w0 Reference.e0 8.0 ∧
  on (b1 ++ b2) = (weighted q_total, weighted q_cloning, weighted q_FA, weighted q_FB).
Proof.
  intros b1 b2 on weighted.
  assert (H1 : b1 ≠ []) by done. assert (H2 : b2 ≠ []) by done.
  destruct (compute_loss_batch_mean Reference.imports Reference.w0 8.0 b1
              Reference.e0 b1 b2 H1 H2) as (_ & Hone & Happ).
  split; [exact Hone | exact Happ].
Defined.


Lemma norm_eff_phase_e0 weights beta :
  norm_eff (compute_loss_frame Reference.imports_phase weights Reference.e0 beta) = 0.
Proof.
  frame_fields. cbn [encode_qutrit Reference.imports_phase].
  unfold Reference.encode_phase. cbn [fst].
  set (theta := default 0 (weights !! "1"%string)).
  assert (Hp : slice_1_3 (Reference.mvec3 (Reference.phase3 theta) Reference.e0) = zero2).
  { unfold Reference.phase3, zero2. ref_cbv. f_equal; f_equal; lra. }
  rewrite Hp. apply jnp_linalg_norm_zero2.
Qed.


Lemma two_batches_nonempty (n e : nat) : (e < n)%nat → Reference.two_batches e ≠ [].
Proof. done. Qed.

Lemma train_histories_witness :
  ∃ (w : weights_t) (lh ch fa fb : list R),
    train Reference.imports Reference.d_dw Reference.randn Reference.two_batches 2 0.01 8.0
      = Ok (w, lh, ch, fa, fb) ∧
    length lh = 2%nat ∧ length ch = 2%nat ∧ length fa = 2%nat ∧ length fb = 2%nat.
Proof.
  destruct (train_histories Reference.imports Reference.d_dw Reference.randn
              Reference.two_batches 2 0.01 8.0 (two_batches_nonempty 2))
    as (w & lh & ch & fa & fb & Ht & _ & Hl & Hc & Ha & Hb & _).
  exists w, lh, ch, fa, fb.
  exact (conj Ht (conj Hl (conj Hc (conj Ha Hb)))).
Defined.

Lemma weights_keys_witness :
  dom (st_weights
         (foldl (batch_body Reference.imports Reference.d_dw 0.01 8.0)
            (epoch_start
               (weights_at_epoch Reference.imports Reference.d_dw Reference.randn
                  Reference.two_batches 0.01 8.0 1))
            (take 1 (Reference.two_batches 1))))
  = weight_keys.
Proof.
  apply (weights_keys Reference.imports Reference.d_dw Reference.randn
           Reference.two_batches 0.01 8.0).
Defined.

Lemma train_division_witness :
  (∃ r, train Reference.imports Reference.d_dw Reference.randn Reference.two_batches 2 0.01 8.0
        = Ok r) ∧
  train Reference.imports Reference.d_dw Reference.randn Reference.no_batches 1 0.01 8.0
    = Raise ZeroDivisionError.
Proof.
  split.
  - apply (train_division Reference.imports Reference.d_dw Reference.randn
             Reference.two_batches 2 0.01 8.0).
    exact (two_batches_nonempty 2).
  - apply (train_division Reference.imports Reference.d_dw Reference.randn
             Reference.no_batches 1 0.01 8.0); [lia | done].
Defined.

(** C10, as stated, fails at num_epochs = 0: the loader yields no batch,
    no epoch runs, no division is executed, and train returns. *)
Lemma train_no_epoch_counterexample :
  train Reference.imports Reference.d_dw Reference.randn Reference.no_batches 0 0.01 1.0
    = Ok (init_weights Reference.randn, [], [], [], []) ∧
  train Reference.imports Reference.d_dw Reference.randn Reference.no_batches 0 0.01 1.0
    ≠ Raise ZeroDivisionError.
Proof. split; [reflexivity | discriminate]. Qed.

End ReferenceFacts.

(** * Further properties of the pipeline *)

(** ** The computed norm against the Euclidean norm *)

(** The error of one rounding: a relative 2^-24, or the absolute 2^-150 of
    the subnormal numbers. *)
Lemma f32_bounds (x : R) :
  0 <= x →
  (1 - / 16777216) * x - powerRZ 2 (-150) <= f32 x
  <= (1 + / 16777216) * x + powerRZ 2 (-150).
Proof.
  intros Hx. pose proof (f32_error x) as He. apply Rabs_le_inv in He.
  pose proof (pow2_pos (-150)) as Hp.
  destruct (Req_dec x 0) as [->|Hne]; [rewrite f32_0; lra|].
  destruct (Rle_dec (powerRZ 2 (-126)) x) as [Hn|Hs].
  - pose proof (f32_ulp_normal x Hn) as Hu. rewrite pow2_m23 in Hu. lra.
  - apply Rnot_le_lt in Hs. rewrite f32_ulp_small in He by lra.
    assert (H149 : powerRZ 2 (-149) = 2 * powerRZ 2 (-150)).
    { change (-149)%Z with (1 + -150)%Z. rewrite pow2_add. simpl. lra. }
    rewrite H149 in He. lra.
Qed.

Lemma pow2_m150_small : powerRZ 2 (-150) <= 1e-45.
Proof. unfold powerRZ. simpl. lra. Qed.

(** The computed sum of squares against the exact one. *)
Lemma sum_of_squares_f32 (v : qubit) :
  let S := Cnorm2 (x0 v) + Cnorm2 (x1 v) in
  let T := f32 (Cnorm2_f32 (x0 v) + Cnorm2_f32 (x1 v)) in
  1e-24 <= S →
  (1 - 4 / 16777216) * S <= T <= (1 + 4 / 16777216) * S.
Proof.
  intros S T HS. subst S T. unfold Cnorm2_f32, Cnorm2 in *.
  set (u1 := Cre (x0 v) * Cre (x0 v)) in *. set (u2 := Cim (x0 v) * Cim (x0 v)) in *.
  set (u3 := Cre (x1 v) * Cre (x1 v)) in *. set (u4 := Cim (x1 v) * Cim (x1 v)) in *.
  assert (H1 : 0 <= u1) by (unfold u1; nra). assert (H2 : 0 <= u2) by (unfold u2; nra).
  assert (H3 : 0 <= u3) by (unfold u3; nra). assert (H4 : 0 <= u4) by (unfold u4; nra).
  clearbody u1 u2 u3 u4.
  pose proof pow2_m150_small as He. pose proof (pow2_pos (-150)) as Hp.
  pose proof (f32_bounds u1 H1) as B1. pose proof (f32_nonneg u1 H1) as P1.
  pose proof (f32_bounds u2 H2) as B2. pose proof (f32_nonneg u2 H2) as P2.
  pose proof (f32_bounds u3 H3) as B3. pose proof (f32_nonneg u3 H3) as P3.
  pose proof (f32_bounds u4 H4) as B4. pose proof (f32_nonneg u4 H4) as P4.
  set (p1 := f32 u1) in *. set (p2 := f32 u2) in *.
  set (p3 := f32 u3) in *. set (p4 := f32 u4) in *. clearbody p1 p2 p3 p4.
  assert (H12 : 0 <= p1 + p2) by lra. assert (H34 : 0 <= p3 + p4) by lra.
  pose proof (f32_bounds _ H12) as B12. pose proof (f32_nonneg _ H12) as P12.
  pose proof (f32_bounds _ H34) as B34. pose proof (f32_nonneg _ H34) as P34.
  set (q1 := f32 (p1 + p2)) in *. set (q2 := f32 (p3 + p4)) in *. clearbody q1 q2.
  assert (Hq : 0 <= q1 + q2) by lra.
  pose proof (f32_bounds _ Hq) as BT.
  set (T := f32 (q1 + q2)) in *. clearbody T.
  set (eta := powerRZ 2 (-150)) in *. clearbody eta.
  split; lra.
Qed.

Lemma euclidean_norm_nonneg (v : qubit) : 0 <= euclidean_norm v.
Proof. apply sqrt_pos. Qed.

Lemma euclidean_norm_sqr (v : qubit) :
  euclidean_norm v * euclidean_norm v = Cnorm2 (x0 v) + Cnorm2 (x1 v).
Proof.
  apply sqrt_sqrt.
  pose proof (Cnorm2_nonneg (x0 v)). pose proof (Cnorm2_nonneg (x1 v)). lra.
Qed.

(** The computed norm is the Euclidean norm up to a few roundings, for a
    vector that is not too small. *)
Lemma jnp_linalg_norm_close (v : qubit) :
  1e-12 <= euclidean_norm v →
  (1 - 6 / 16777216) * euclidean_norm v <= jnp_linalg_norm v
  <= (1 + 4 / 16777216) * euclidean_norm v.
Proof.
  intros Hs. pose proof (euclidean_norm_sqr v) as Hsq.
  set (s := euclidean_norm v) in *.
  assert (HS : 1e-24 <= Cnorm2 (x0 v) + Cnorm2 (x1 v)) by (rewrite <- Hsq; nra).
  pose proof (sum_of_squares_f32 v HS) as HT. cbv zeta in HT.
  unfold jnp_linalg_norm.
  set (T := f32 (Cnorm2_f32 (x0 v) + Cnorm2_f32 (x1 v))) in *. clearbody T.
  rewrite <- Hsq in HT. clear HS Hsq. clearbody s.
  assert (Hlo : (1 - 4 / 16777216) * s <= sqrt T).
  { rewrite <- (sqrt_square ((1 - 4 / 16777216) * s)) by nra.
    apply sqrt_le_1_alt. nra. }
  assert (Hhi : sqrt T <= (1 + 2 / 16777216) * s).
  { rewrite <- (sqrt_square ((1 + 2 / 16777216) * s)) by nra.
    apply sqrt_le_1_alt. nra. }
  pose proof (f32_bounds (sqrt T) (sqrt_pos T)) as Hn.
  pose proof pow2_m150_small as He. pose proof (pow2_pos (-150)) as Hp.
  set (eta := powerRZ 2 (-150)) in *. clearbody eta.
  set (r := sqrt T) in *. clearbody r.
  split; lra.
Qed.

Lemma euclidean_norm_vdiv (v : qubit) (n : R) :
  n > 0 → euclidean_norm (vdiv v n) = euclidean_norm v / n.
Proof.
  intros Hn. unfold euclidean_norm at 1, vdiv. cbn [x0 x1].
  unfold Cnorm2 at 1 2, Cdiv_real. cbn [Cre Cim fst snd].
  replace (Cre (x0 v) / n * (Cre (x0 v) / n) + Cim (x0 v) / n * (Cim (x0 v) / n)
           + (Cre (x1 v) / n * (Cre (x1 v) / n) + Cim (x1 v) / n * (Cim (x1 v) / n)))
    with ((euclidean_norm v / n) * (euclidean_norm v / n)).
  - apply sqrt_square. apply Rmult_le_pos; [apply euclidean_norm_nonneg|].
    apply Rlt_le, Rinv_0_lt_compat, Hn.
  - replace (euclidean_norm v / n * (euclidean_norm v / n))
      with (euclidean_norm v * euclidean_norm v / (n * n)) by (field; lra).
    rewrite euclidean_norm_sqr. unfold Cnorm2. field. lra.
Qed.

Lemma unit_norm_after_division (v : qubit) :
  1e-12 <= euclidean_norm v →
  jnp_linalg_norm v > 0 ∧
  Rabs (euclidean_norm (vdiv v (jnp_linalg_norm v)) - 1) <= 1e-6.
Proof.
  intros Hs. pose proof (jnp_linalg_norm_close v Hs) as [Hlo Hhi].
  set (n := jnp_linalg_norm v) in *. clearbody n.
  assert (Hn : n > 0) by lra. split; [done|].
  rewrite euclidean_norm_vdiv by done.
  set (s := euclidean_norm v) in *. clearbody s.
  assert (Hq : 1 - 1e-6 <= s / n <= 1 + 1e-6).
  { split.
    - apply Rmult_le_reg_r with n; [lra|].
      replace (s / n * n) with s by (field; lra). lra.
    - apply Rmult_le_reg_r with n; [lra|].
      replace (s / n * n) with s by (field; lra). lra. }
  apply Rabs_le. lra.
Qed.

Section MorePipelineFacts.

Context (I : Imports).

Implicit Types (weights : weights_t) (s : qutrit) (beta : R) (batch : list qutrit).


(** X2. beta only enters the selection of the total loss: the cloning loss
    and the two fidelities that compute_loss and compute_loss_batch return
    are the same for every beta. *)
Theorem beta_only_in_total weights s batch (beta beta' : R) :
  (q_cloning (compute_loss I weights s beta) = q_cloning (compute_loss I weights s beta') ∧
   q_FA (compute_loss I weights s beta) = q_FA (compute_loss I weights s beta') ∧
   q_FB (compute_loss I weights s beta) = q_FB (compute_loss I weights s beta')) ∧
  (q_cloning (compute_loss_batch I weights batch beta)
     = q_cloning (compute_loss_batch I weights batch beta') ∧
   q_FA (compute_loss_batch I weights batch beta)
     = q_FA (compute_loss_batch I weights batch beta') ∧
   q_FB (compute_loss_batch I weights batch beta)
     = q_FB (compute_loss_batch I weights batch beta')).
Proof.
  assert (Hs : ∀ st,
    q_cloning (compute_loss I weights st beta) = q_cloning (compute_loss I weights st beta') ∧
    q_FA (compute_loss I weights st beta) = q_FA (compute_loss I weights st beta') ∧
    q_FB (compute_loss I weights st beta) = q_FB (compute_loss I weights st beta')).
  { intros st. frame_fields. done. }
  split; [apply Hs|].
  rewrite !compute_loss_batch_eq. unfold q_cloning, q_FA, q_FB. cbn [fst snd].
  repeat split; f_equal; apply map_ext; intros st; apply Hs.
Qed.

(** X3. The occupation loss is a squared modulus, so the total loss is never
    negative when the selector returns the occupation loss, that is when
    |beta - 1.0| rounded to float32 is below float32(1e-6), or
    |beta - 1.0| <= 17592185 * 2^-44; for any other beta that is not
    negative it is at least the cloning loss. *)
Theorem total_loss_lower_bound weights s beta :
  let fr := compute_loss_frame I weights s beta in
  0 <= occupation_loss fr ∧
  (f32 (Rabs (beta - 1.0)) < f32 1e-6 →
     0 <= q_total (compute_loss I weights s beta)) ∧
  (Rabs (beta - 1.0) <= 17592185 / 17592186044416 →
     0 <= q_total (compute_loss I weights s beta)) ∧
  (¬ f32 (Rabs (beta - 1.0)) < f32 1e-6 → 0 <= beta →
     cloning_loss fr <= q_total (compute_loss I weights s beta)) ∧
  (17592185 / 17592186044416 < Rabs (beta - 1.0) → 0 <= beta →
     cloning_loss fr <= q_total (compute_loss I weights s beta)).
Proof.
  intros fr.
  assert (Hocc : 0 <= occupation_loss fr).
  { subst fr. frame_fields. rewrite Cabs_sqr. apply Cnorm2_nonneg. }
  assert (Hnear : f32 (Rabs (beta - 1.0)) < f32 1e-6 →
                  0 <= q_total (compute_loss I weights s beta)).
  { intros Hnear. change (0 <= total_loss fr). subst fr.
    by rewrite total_loss_near. }
  assert (Hfar : ¬ f32 (Rabs (beta - 1.0)) < f32 1e-6 → 0 <= beta →
                 cloning_loss fr <= q_total (compute_loss I weights s beta)).
  { intros Hfar Hb. change (cloning_loss fr <= total_loss fr). subst fr.
    rewrite total_loss_far by done. nra. }
  split; [done|]. split; [done|]. split; [|split; [done|]].
  - intros H. by apply Hnear, selector_threshold.
  - intros H. apply Hfar. rewrite selector_threshold. lra.
Qed.

(** X4. When both fidelities lie in [0,1] the cloning loss lies in [-1,1]
    and is at least 1 - F_A - F_B; when the two fidelities are equal it is
    1 - 2 F_A. *)
Theorem cloning_loss_range weights s beta :
  let fr := compute_loss_frame I weights s beta in
  0 <= F_A fr <= 1 → 0 <= F_B fr <= 1 →
  -1 <= cloning_loss fr <= 1 ∧
  1 - F_A fr - F_B fr <= cloning_loss fr ∧
  (F_A fr = F_B fr → cloning_loss fr = 1 - 2 * F_A fr).
Proof.
  intros fr. subst fr. frame_fields.
  set (a := fidelity I s _). set (b := fidelity I s _). clearbody a b.
  intros Ha Hb. cbn [pow]. rewrite Rmult_1_r.
  assert (a * a <= a) by nra. assert (b * b <= b) by nra.
  assert (0 <= a * b) by nra. pose proof (Rle_0_sqr (a - b)) as Hsq. unfold Rsqr in Hsq.
  split; [split; nra|]. split; [nra|]. intros Hab. rewrite Hab. ring.
Qed.

(** X5. compute_loss_batch does not depend on the order of the states in
    the batch. *)
Theorem batch_order_irrelevant weights (b b' : list qutrit) beta :
  b ≡ₚ b' →
  compute_loss_batch I weights b beta = compute_loss_batch I weights b' beta.
Proof. apply compute_loss_batch_Permutation. Qed.

End MorePipelineFacts.

(** * Further properties of train *)

Section MoreTrainingFacts.

Context (I : Imports).
Variable d_dw : (weights_t → R) → weights_t → string → R.
Variable randn : nat → R.

Implicit Types (w : weights_t) (lr beta : R) (batches : list (list qutrit))
  (dataloader : nat → list (list qutrit)).

(** X7. train raises ZeroDivisionError exactly when one of its num_epochs
    iterations over the dataloader yields no batch, and returns exactly
    when every one of them yields at least one. *)
Theorem train_raises_iff dataloader (num_epochs : nat) lr beta :
  (train I d_dw randn dataloader num_epochs lr beta = Raise ZeroDivisionError
   ↔ ∃ e, (e < num_epochs)%nat ∧ dataloader e = []) ∧
  ((∃ r, train I d_dw randn dataloader num_epochs lr beta = Ok r)
   ↔ ∀ e, (e < num_epochs)%nat → dataloader e ≠ []).
Proof.
  destruct (batches_in_every_epoch_or_not dataloader num_epochs) as [Hall|Hex].
  - pose proof (train_batches I d_dw randn dataloader num_epochs lr beta Hall) as Ht.
    split; split.
    + rewrite Ht. discriminate.
    + intros (e & He & Hnil). by destruct (Hall e He).
    + done.
    + intros _. eexists. exact Ht.
  - pose proof (train_no_batches I d_dw randn dataloader num_epochs lr beta Hex) as Ht.
    split; split.
    + done.
    + done.
    + intros [r Hr]. rewrite Ht in Hr. discriminate.
    + intros Hall. destruct Hex as (e & He & Hnil). by destruct (Hall e He).
Qed.

(** X8. Nothing of an earlier epoch is revised by a later one: when the
    first num_epochs + 1 iterations all yield a batch, training for
    num_epochs + 1 epochs returns the histories of training for num_epochs
    epochs with one entry appended to each, and the parameters of the
    shorter run advanced by one step per batch of the last epoch. *)
Theorem train_one_more_epoch dataloader (num_epochs : nat) lr beta :
  (∀ e, (e < S num_epochs)%nat → dataloader e ≠ []) →
  ∃ (w : weights_t) (lh ch fa fb : list R),
    train I d_dw randn dataloader num_epochs lr beta = Ok (w, lh, ch, fa, fb) ∧
    let last := dataloader num_epochs in
    let reports := batch_reports I d_dw lr beta w last in
    let avg (out : quad → R) := Rsum (map out reports) / INR (length last) in
    train I d_dw randn dataloader (S num_epochs) lr beta
    = Ok (weights_after I d_dw lr beta w last,
          lh ++ [avg q_total], ch ++ [avg q_cloning],
          fa ++ [avg q_FA], fb ++ [avg q_FB]).
Proof.
  intros Hne. eexists _, _, _, _, _. split.
  - apply train_batches. intros e He. apply Hne. lia.
  - cbv zeta. rewrite train_batches by done.
    unfold epoch_averages. rewrite !seq_S, !map_app. reflexivity.
Qed.

End MoreTrainingFacts.

(** * QutritDataset *)

Section DatasetFacts.

Implicit Types (lines rows : list (list R)) (row : list R) (c : nat).

Lemma add_1j_six row :
  (6 ≤ length row)%nat →
  add_1j (columns 0 3 row) (columns 3 6 row) = Returns (row_state row).
Proof.
  intros Hlen.
  destruct row as [|a [|b [|c' [|x [|y [|z tail]]]]]]; simpl in Hlen; try lia.
  reflexivity.
Qed.

Lemma add_1j_four row :
  length row = 4%nat →
  add_1j (columns 0 3 row) (columns 3 6 row)
  = Returns [(nth 0 row 0, nth 3 row 0); (nth 1 row 0, nth 3 row 0);
             (nth 2 row 0, nth 3 row 0)].
Proof.
  intros Hlen.
  destruct row as [|a [|b [|c' [|x [|y tail]]]]]; simpl in Hlen; try lia.
  reflexivity.
Qed.

Lemma add_1j_refused row :
  length row = 2%nat ∨ length row = 3%nat ∨ length row = 5%nat →
  add_1j (columns 0 3 row) (columns 3 6 row) = Raises ValueError.
Proof.
  intros Hlen.
  destruct row as [|a [|b [|c' [|x [|y [|z tail]]]]]]; simpl in Hlen; try lia;
    reflexivity.
Qed.

Lemma for_rows_ext {A B : Type} (f : A → outcome B) (g : A → B) (l : list A) :
  Forall (λ x, f x = Returns (g x)) l → for_rows f l = Returns (map g l).
Proof.
  induction 1 as [|x l Hx _ IH]; [done|].
  cbn [for_rows map]. by rewrite Hx, IH.
Qed.

Lemma for_rows_refused {A B : Type} (f : A → outcome B) (e : exception) (l : list A) :
  l ≠ [] → Forall (λ x, f x = Raises e) l → for_rows f l = Raises e.
Proof.
  intros Hne Hall. destruct Hall as [|x l Hx _]; [done|].
  cbn [for_rows]. by rewrite Hx.
Qed.

(** What [np.loadtxt] returns, by the number of rows and their width. *)
Lemma np_loadtxt_table lines c :
  (2 ≤ length (nonblank lines))%nat →
  Forall (λ row, length row = c) (nonblank lines) →
  np_loadtxt lines
  = Returns (if decide (c = 1%nat) then Array1 (concat (nonblank lines))
             else Array2 (nonblank lines)).
Proof.
  unfold np_loadtxt. intros Hlen Hall.
  destruct (nonblank lines) as [|row [|row' rest]]; simpl in Hlen; try lia.
  apply Forall_cons in Hall as [Hrow Hall].
  rewrite decide_True by (eapply Forall_impl; [exact Hall | simpl; congruence]).
  rewrite Hrow. by destruct (decide (c = 1%nat)).
Qed.

Lemma np_loadtxt_short lines :
  (length (nonblank lines) ≤ 1)%nat →
  ∃ xs, np_loadtxt lines = Returns (Array1 xs).
Proof.
  unfold np_loadtxt. intros Hlen.
  destruct (nonblank lines) as [|row [|row' rest]]; simpl in Hlen; try lia.
  - by eexists.
  - rewrite decide_True by constructor. by eexists.
Qed.

Lemma np_loadtxt_ragged lines :
  ¬ (∃ c, Forall (λ row, length row = c) (nonblank lines)) →
  np_loadtxt lines = Raises ValueError.
Proof.
  unfold np_loadtxt. intros Hrag.
  destruct (nonblank lines) as [|row rest].
  - destruct Hrag. exists 0%nat. constructor.
  - rewrite decide_False; [done|]. intros Hall. apply Hrag.
    exists (length row). by constructor.
Qed.

Lemma QutritDataset_init_table lines c :
  (2 ≤ length (nonblank lines))%nat →
  Forall (λ row, length row = c) (nonblank lines) →
  c ≠ 1%nat →
  QutritDataset_init lines
  = states ← for_rows (λ row, add_1j (columns 0 3 row) (columns 3 6 row))
                       (nonblank lines);
    mret {| states := states |}.
Proof.
  intros Hlen Hall Hc. unfold QutritDataset_init.
  rewrite (np_loadtxt_table lines c) by done.
  by rewrite decide_False by done.
Qed.

Lemma row_state_take row : row_state (take 6 row) = row_state row.
Proof.
  unfold row_state.
  by destruct row as [|a [|b [|c' [|x [|y [|z tail]]]]]].
Qed.

Lemma QutritDataset_init_six lines c :
  (2 ≤ length (nonblank lines))%nat →
  Forall (λ row, length row = c) (nonblank lines) →
  (6 ≤ c)%nat →
  QutritDataset_init lines = Returns {| states := map row_state (nonblank lines) |}.
Proof.
  intros Hlen Hall Hc. rewrite (QutritDataset_init_table lines c) by (done || lia).
  rewrite (for_rows_ext _ row_state); [done|].
  eapply Forall_impl; [exact Hall|]. intros row Hrow. apply add_1j_six.
  simpl in Hrow. lia.
Qed.

(** X9. A file of at least two rows, all with the same number of columns,
    at least six, loads: the dataset has one state per row, whose component
    i is column i plus 1j times column 3 + i.  Columns from the seventh on
    (the overlap) and blank lines do not matter: any file whose rows have
    one length and the same first six columns gives the same dataset. *)
Theorem dataset_from_rows lines c :
  (2 ≤ length (nonblank lines))%nat →
  Forall (λ row, length row = c) (nonblank lines) →
  (6 ≤ c)%nat →
  ∃ ds, QutritDataset_init lines = Returns ds ∧
        states ds = map row_state (nonblank lines) ∧
        QutritDataset_len ds = length (nonblank lines) ∧
        ∀ lines' c',
          map (take 6) (nonblank lines') = map (take 6) (nonblank lines) →
          Forall (λ row, length row = c') (nonblank lines') →
          QutritDataset_init lines' = Returns ds.
Proof.
  intros Hlen Hall Hc.
  eexists. split; [by apply (QutritDataset_init_six lines c)|]. split; [done|].
  split; [unfold QutritDataset_len; cbn; by rewrite length_map|].
  intros lines' c' Hsame Hall'.
  assert (Hlen' : length (nonblank lines') = length (nonblank lines))
    by (by rewrite <- (length_map (take 6)), Hsame, length_map).
  assert (Hc' : (6 ≤ c')%nat).
  { destruct (nonblank lines') as [|r' rest']; [simpl in Hlen'; lia|].
    destruct (nonblank lines) as [|r rest]; [simpl in Hlen; lia|].
    apply Forall_cons in Hall as [Hr _]. apply Forall_cons in Hall' as [Hr' _].
    injection Hsame as Hhead _. apply (f_equal length) in Hhead.
    rewrite !length_take in Hhead. lia. }
  rewrite (QutritDataset_init_six lines' c') by (done || lia).
  do 2 f_equal.
  rewrite <- (map_ext _ _ row_state_take (nonblank lines')).
  rewrite <- (map_ext _ _ row_state_take (nonblank lines)).
  by rewrite <- !(map_map (take 6) row_state), Hsame.
Qed.

(** X10. What the constructor refuses: a file of fewer than two rows, or of
    rows of one column, raises IndexError (np.loadtxt returns an array of
    fewer than two dimensions); rows of different lengths, or rows of two,
    three or five columns, raise ValueError. *)
Theorem dataset_refused lines c :
  ((length (nonblank lines) ≤ 1)%nat → QutritDataset_init lines = Raises IndexError) ∧
  (¬ (∃ c', Forall (λ row, length row = c') (nonblank lines)) →
     QutritDataset_init lines = Raises ValueError) ∧
  ((2 ≤ length (nonblank lines))%nat →
   Forall (λ row, length row = c) (nonblank lines) →
     (c = 1%nat → QutritDataset_init lines = Raises IndexError) ∧
     (c = 2%nat ∨ c = 3%nat ∨ c = 5%nat →
        QutritDataset_init lines = Raises ValueError)).
Proof.
  split; [|split].
  - intros Hshort. unfold QutritDataset_init.
    destruct (np_loadtxt_short lines Hshort) as [xs ->]. reflexivity.
  - intros Hrag. unfold QutritDataset_init. by rewrite np_loadtxt_ragged.
  - intros Hlen Hall. split.
    + intros ->. unfold QutritDataset_init.
      by rewrite (np_loadtxt_table lines 1).
    + intros Hc. rewrite (QutritDataset_init_table lines c) by (done || lia).
      rewrite (for_rows_refused _ ValueError); [done| |].
      * intros Hnil. rewrite Hnil in Hlen. simpl in Hlen. lia.
      * eapply Forall_impl; [exact Hall|]. intros row Hrow.
        apply add_1j_refused. simpl in Hrow. lia.
Qed.

Lemma QutritDataset_init_four lines :
  (2 ≤ length (nonblank lines))%nat →
  Forall (λ row, length row = 4%nat) (nonblank lines) →
  QutritDataset_init lines
  = Returns {| states :=
       map (λ row, [(nth 0 row 0, nth 3 row 0); (nth 1 row 0, nth 3 row 0);
                    (nth 2 row 0, nth 3 row 0)]) (nonblank lines) |}.
Proof.
  intros Hlen Hall. rewrite (QutritDataset_init_table lines 4) by (done || lia).
  rewrite (for_rows_ext _ (λ row, [(nth 0 row 0, nth 3 row 0); (nth 1 row 0, nth 3 row 0);
                                   (nth 2 row 0, nth 3 row 0)])); [done|].
  eapply Forall_impl; [exact Hall|]. intros row Hrow. by apply add_1j_four.
Qed.

(** X11. A file of rows of four columns is accepted: the single column 3 is
    broadcast, and becomes the imaginary part of all three components. *)
Theorem dataset_four_columns lines :
  (2 ≤ length (nonblank lines))%nat →
  Forall (λ row, length row = 4%nat) (nonblank lines) →
  ∃ ds, QutritDataset_init lines = Returns ds ∧
        states ds
        = map (λ row, [(nth 0 row 0, nth 3 row 0); (nth 1 row 0, nth 3 row 0);
                       (nth 2 row 0, nth 3 row 0)]) (nonblank lines).
Proof.
  intros Hlen Hall. eexists. split; [by apply QutritDataset_init_four|]. done.
Qed.

Lemma uniform_or_ragged rows :
  (∃ c, Forall (λ row, length row = c) rows)
  ∨ ¬ (∃ c, Forall (λ row, length row = c) rows).
Proof.
  destruct rows as [|row rest]; [left; exists 0%nat; constructor|].
  destruct (decide (Forall (λ row', length row' = length row) rest)) as [Hall|Hno].
  - left. exists (length row). by constructor.
  - right. intros [c Hc]. apply Forall_cons in Hc as [Hrow Hrest].
    apply Hno. eapply Forall_impl; [exact Hrest | simpl; congruence].
Qed.

Lemma QutritDataset_init_returns lines (ds : QutritDataset) :
  QutritDataset_init lines = Returns ds →
  (2 ≤ QutritDataset_len ds)%nat ∧
  Forall (λ state, length state = 3%nat ∧ of_qutrit (to_qutrit state) = state)
         (states ds).
Proof.
  intros Hinit.
  destruct (decide (length (nonblank lines) ≤ 1)%nat) as [Hshort|Hlong].
  { destruct (np_loadtxt_short lines Hshort) as [xs Hxs].
    unfold QutritDataset_init in Hinit. by rewrite Hxs in Hinit. }
  destruct (uniform_or_ragged (nonblank lines)) as [[c Hall]|Hrag]; last first.
  { unfold QutritDataset_init in Hinit. by rewrite np_loadtxt_ragged in Hinit. }
  assert (Hpos : (0 < c)%nat).
  { destruct (nonblank lines) as [|row rest] eqn:Hrows; [simpl in Hlong; lia|].
    assert (Hin : row ∈ nonblank lines) by (rewrite Hrows; left).
    apply list_elem_of_filter in Hin as [Hrow _].
    apply Forall_cons in Hall as [<- _]. done. }
  destruct (decide (c = 1%nat)) as [->|Hc1].
  { unfold QutritDataset_init in Hinit.
    by rewrite (np_loadtxt_table lines 1) in Hinit by (done || lia). }
  destruct (decide (c = 2 ∨ c = 3 ∨ c = 5)%nat) as [Hbad|Hgood].
  { rewrite (QutritDataset_init_table lines c) in Hinit by (done || lia).
    rewrite (for_rows_refused _ ValueError) in Hinit; [done| |].
    - intros Hnil. rewrite Hnil in Hlong. simpl in Hlong. lia.
    - eapply Forall_impl; [exact Hall|]. intros row Hrow.
      apply add_1j_refused. simpl in Hrow. lia. }
  destruct (decide (c = 4%nat)) as [->|Hc4].
  - rewrite QutritDataset_init_four in Hinit by (done || lia).
    injection Hinit as <-. unfold QutritDataset_len. cbn [states].
    rewrite length_map. split; [lia|].
    apply Forall_map, Forall_true. intros row. done.
  - rewrite (QutritDataset_init_six lines c) in Hinit by (done || lia).
    injection Hinit as <-. unfold QutritDataset_len. cbn [states].
    rewrite length_map. split; [lia|].
    apply Forall_map, Forall_true. intros row. done.
Qed.

(** X12. Whatever the file, a dataset that the constructor returns has at
    least two states, and every state has exactly three components. *)
Theorem dataset_states_are_qutrits lines (ds : QutritDataset) :
  QutritDataset_init lines = Returns ds →
  (2 ≤ QutritDataset_len ds)%nat ∧
  Forall (λ state, length state = 3%nat ∧ of_qutrit (to_qutrit state) = state)
         (states ds).
Proof. apply QutritDataset_init_returns. Qed.

Lemma QutritDataset_getitem_0 (ds : QutritDataset) (ref : list complex) :
  states ds !! 0%nat = Some ref → QutritDataset_getitem ds 0 = Returns ref.
Proof.
  intros Href. pose proof (lookup_lt_Some _ _ _ Href) as Hlt.
  unfold QutritDataset_getitem. cbv zeta.
  destruct (decide (0 < 0)%Z) as [?|_]; [lia|].
  rewrite decide_True by lia. change (Z.to_nat 0) with 0%nat. by rewrite Href.
Qed.

(** X13. Indexing a dataset of n states: an index i with 0 <= i < n gives
    state i, the index i - n gives the same state, and every index below
    -n or from n on raises IndexError. *)
Theorem dataset_getitem (ds : QutritDataset) (idx : Z) :
  let n := Z.of_nat (QutritDataset_len ds) in
  (∀ (i : nat) state, states ds !! i = Some state →
     QutritDataset_getitem ds (Z.of_nat i) = Returns state ∧
     QutritDataset_getitem ds (Z.of_nat i - n) = Returns state) ∧
  ((idx < - n ∨ n ≤ idx)%Z → QutritDataset_getitem ds idx = Raises IndexError) ∧
  ((- n ≤ idx < n)%Z → ∃ state, QutritDataset_getitem ds idx = Returns state).
Proof.
  intros n. subst n. unfold QutritDataset_len, QutritDataset_getitem. cbv zeta.
  set (n := Z.of_nat (length (states ds))).
  assert (Hget : ∀ (i : nat) state, states ds !! i = Some state →
    (if decide (0 ≤ Z.of_nat i < n)%Z
     then match states ds !! Z.to_nat (Z.of_nat i) with
          | Some st => Returns st
          | None => Raises IndexError
          end
     else Raises IndexError) = Returns state).
  { intros i state Hi. pose proof (lookup_lt_Some _ _ _ Hi) as Hlt.
    rewrite decide_True by (unfold n; lia). by rewrite Nat2Z.id, Hi. }
  split; [|split].
  - intros i state Hi. pose proof (lookup_lt_Some _ _ _ Hi) as Hlt. split.
    + rewrite (decide_False (P := (Z.of_nat i < 0)%Z)) by lia. by apply Hget.
    + rewrite (decide_True (P := (Z.of_nat i - n < 0)%Z)) by (unfold n; lia).
      replace (Z.of_nat i - n + n)%Z with (Z.of_nat i) by lia. by apply Hget.
  - intros Hout. destruct (decide (idx < 0)%Z).
    + rewrite decide_False; [done | unfold n in *; lia].
    + rewrite decide_False; [done | unfold n in *; lia].
  - intros Hin.
    set (i := if decide (idx < 0)%Z then (idx + n)%Z else idx).
    assert (Hi : (0 ≤ i < n)%Z) by (unfold i; destruct (decide (idx < 0)%Z); lia).
    rewrite decide_True by done.
    destruct (lookup_lt_is_Some_2 (states ds) (Z.to_nat i)) as [state Hst];
      [unfold n in Hi; lia|].
    exists state. by rewrite Hst.
Qed.

End DatasetFacts.

(** * DataLoader *)

Section ChunkFacts.

Context {A : Type}.

Implicit Types (l : list A) (b fuel : nat).

Lemma chunks_from_concat fuel b l :
  (0 < b)%nat → (length l ≤ fuel)%nat → concat (chunks_from fuel b l) = l.
Proof.
  intros Hb. revert l. induction fuel as [|fuel IH]; intros l Hlen.
  - destruct l; [done | simpl in Hlen; lia].
  - destruct l as [|x l']; [done|].
    cbn [chunks_from concat]. rewrite IH.
    + apply take_drop.
    + rewrite length_drop. simpl in *. lia.
Qed.

Lemma chunks_from_sizes fuel b l :
  (0 < b)%nat →
  Forall (λ batch, (0 < length batch ≤ b)%nat) (chunks_from fuel b l).
Proof.
  intros Hb. revert l. induction fuel as [|fuel IH]; intros l; [constructor|].
  destruct l as [|x l']; [constructor|].
  cbn [chunks_from]. constructor; [|apply IH].
  rewrite length_take. simpl. lia.
Qed.

Lemma chunks_from_length fuel b l :
  (0 < b)%nat → (length l ≤ fuel)%nat →
  length (chunks_from fuel b l) = ((length l + b - 1) / b)%nat.
Proof.
  intros Hb. revert l. induction fuel as [|fuel IH]; intros l Hlen.
  - destruct l; [|simpl in Hlen; lia]. simpl.
    symmetry. apply Nat.div_small. lia.
  - destruct l as [|x l'].
    + simpl. symmetry. apply Nat.div_small. lia.
    + cbn [chunks_from length]. rewrite IH by (rewrite length_drop; simpl in *; lia).
      rewrite length_drop. cbn [length].
      set (n := S (length l')).
      destruct (decide (b ≤ n)%nat) as [Hle|Hgt].
      * replace (n + b - 1)%nat with ((n - b + b - 1) + 1 * b)%nat by lia.
        rewrite Nat.div_add by lia. lia.
      * replace (n - b)%nat with 0%nat by lia.
        replace (n + b - 1)%nat with ((n - 1) + 1 * b)%nat by lia.
        rewrite Nat.div_add by lia.
        rewrite (Nat.div_small (0 + b - 1)), (Nat.div_small (n - 1)) by lia. lia.
Qed.

Lemma chunks_from_lookup fuel b l (i : nat) :
  (0 < b)%nat → (length l ≤ fuel)%nat → (i * b < length l)%nat →
  chunks_from fuel b l !! i = Some (take b (drop (i * b) l)).
Proof.
  intros Hb. revert l i. induction fuel as [|fuel IH]; intros l i Hlen Hi; [lia|].
  destruct l as [|x l']; [simpl in Hi; lia|].
  cbn [chunks_from]. destruct i as [|i]; [done|].
  rewrite lookup_cons_ne_0 by done. cbn [Nat.pred].
  rewrite IH.
  - rewrite drop_drop. repeat f_equal; lia.
  - rewrite length_drop. simpl in *. lia.
  - rewrite length_drop. simpl in *. nia.
Qed.

Lemma chunks_nonempty b l : l ≠ [] → chunks b l ≠ [].
Proof. unfold chunks. by destruct l. Qed.

End ChunkFacts.

Section LoaderFacts.

Variable shuffle : nat → list qutrit → list qutrit.
Hypothesis shuffle_permutation : ∀ k l, shuffle k l ≡ₚ l.

Lemma loader_batches_nonempty (ld : loader qutrit) (k : nat) :
  dl_dataset ld ≠ [] → loader_batches shuffle ld k ≠ [].
Proof.
  intros Hne. apply chunks_nonempty. intros Hnil.
  pose proof (shuffle_permutation k (dl_dataset ld)) as Hp.
  rewrite Hnil in Hp. apply Permutation_nil_l in Hp. done.
Qed.

(** X14. An iteration over a data loader that was built cuts the order
    that the sampler drew into consecutive batches: batch i holds the
    samples from position i * batch_size on, at most batch_size of them, so
    that the batches, put end to end, are that order; no batch is empty or
    longer than the batch size, and their number is the length of the
    order divided by the batch size, rounded up.  A loader is built only
    for a dataset with a sample and a positive batch size. *)
Theorem loader_epoch (dataset : list qutrit) (size : nat) (ld : loader qutrit) (k : nat) :
  DataLoader dataset size = Returns ld →
  let order := shuffle k dataset in
  let batches := loader_batches shuffle ld k in
  dataset ≠ [] ∧ (0 < size)%nat ∧
  concat batches = order ∧
  Forall (λ batch, (0 < length batch ≤ size)%nat) batches ∧
  length batches = ((length order + size - 1) / size)%nat ∧
  (∀ i, (i * size < length order)%nat →
     batches !! i = Some (take size (drop (i * size) order))).
Proof.
  intros Hld order batches. subst order batches.
  assert (dataset ≠ [] ∧ (0 < size)%nat ∧
          ld = {| dl_dataset := dataset; dl_batch_size := size |}) as (Hne & Hsize & ->).
  { unfold DataLoader in Hld. destruct dataset, size; try done.
    injection Hld as <-. repeat split; [done | lia]. }
  unfold loader_batches, chunks. cbn [dl_dataset dl_batch_size].
  split; [done|]. split; [done|]. split; [|split; [|split]].
  - by rewrite chunks_from_concat.
  - by apply chunks_from_sizes.
  - by rewrite chunks_from_length.
  - intros i Hi. by apply chunks_from_lookup.
Qed.

End LoaderFacts.

(** * main *)

Lemma dict_set_fresh {K V : Type} `{EqDecision K} (key : K) (value : V)
    (d : list (K * V)) :
  key ∉ map fst d → dict_set key value d = d ++ [(key, value)].
Proof.
  induction d as [|[k v] d IH]; intros Hfresh; [done|].
  cbn [dict_set map fst] in *. apply not_elem_of_cons in Hfresh as [Hne Hfresh].
  rewrite decide_False by done. by rewrite IH.
Qed.

Lemma grid_NoDup : NoDup grid.
Proof.
  unfold grid, chi_list, beta_list, lr_list. cbn.
  repeat (apply NoDup_cons; split;
          [rewrite ?not_elem_of_cons; repeat split;
           first [apply not_elem_of_nil | intros [=]; lra] |]).
  apply NoDup_nil. done.
Qed.

Lemma grid_lookup (ic ib il : nat) (chi beta lr : R) :
  chi_list !! ic = Some chi → beta_list !! ib = Some beta → lr_list !! il = Some lr →
  grid !! (4 * ic + 2 * ib + il)%nat = Some (chi, beta, lr).
Proof.
  intros Hc Hb Hl.
  destruct ic as [|[|[|[|ic]]]]; try done;
    destruct ib as [|[|ib]]; try done;
    destruct il as [|[|il]]; try done;
    cbn in Hc, Hb, Hl; injection Hc as <-; injection Hb as <-; injection Hl as <-;
    reflexivity.
Qed.

Lemma grid_length : length grid = 16%nat.
Proof. reflexivity. Qed.

Section MainFacts.

Context (I : Imports).
Variable d_dw : (weights_t → R) → weights_t → string → R.
Variable randn : nat → R.
Variable shuffle : nat → list qutrit → list qutrit.
Variable files : R → list (list R).

Hypothesis shuffle_permutation : ∀ k l, shuffle k l ≡ₚ l.

#[local] Abbreviation progress_n := (progress I d_dw randn shuffle files).
#[local] Abbreviation trial_done_j := (trial_done I d_dw randn shuffle files).

Lemma trial_done_extend (j : nat) chi beta lr (st st' : main_state I) :
  (∀ x, hyperparams_results st !! j = Some x → hyperparams_results st' !! j = Some x) →
  (∀ x, unitary_files st !! j = Some x → unitary_files st' !! j = Some x) →
  trial_done_j j chi beta lr st → trial_done_j j chi beta lr st'.
Proof.
  intros Hr Hu (ds & w & lh & ch & fa & fb & ref & Hds & Ht & Hlen & Href & Hres & Huni).
  exists ds, w, lh, ch, fa, fb, ref. eauto 10.
Qed.

(** One trial, from the state after [n] trials. *)
Lemma trial_step (n : nat) chi beta lr (ds : QutritDataset) (st : main_state I) :
  grid !! n = Some (chi, beta, lr) →
  QutritDataset_init (files chi) = Returns ds →
  progress_n n st →
  ∃ st',
    trial I d_dw randn shuffle ds
      {| dl_dataset := map to_qutrit (states ds); dl_batch_size := batch_size |}
      chi beta lr st = Completed st' ∧
    progress_n (S n) st'.
Proof.
  intros Hgrid Hds (Hdraws & Hiters & Hres & Huni & Hdone).
  destruct (QutritDataset_init_returns _ _ Hds) as [Htwo _].
  unfold QutritDataset_len in Htwo.
  destruct (states ds) as [|ref rest] eqn:Hstates; [simpl in Htwo; lia|].
  assert (Href : states ds !! 0%nat = Some ref) by (by rewrite Hstates).
  set (ld := {| dl_dataset := map to_qutrit (states ds); dl_batch_size := batch_size |}).
  assert (Hbatches : ∀ e, (e < num_epochs)%nat →
            loader_batches shuffle ld (num_epochs * n + e) ≠ []).
  { intros e _. apply loader_batches_nonempty; [done|].
    unfold ld. cbn [dl_dataset]. by rewrite Hstates. }
  pose proof (train_batches I d_dw (λ i, randn (8 * n + i)%nat)
                (λ e, loader_batches shuffle ld (num_epochs * n + e)%nat)
                num_epochs lr beta Hbatches) as Htrain.
  unfold trial. rewrite Hdraws, Hiters. rewrite <- Hstates. fold ld.
  rewrite Htrain. rewrite (QutritDataset_getitem_0 ds ref Href).
  destruct (encode_qutrit I (to_qutrit ref) _) as [enc U] eqn:Henc.
  assert (Hn : (n < length grid)%nat) by (by eapply lookup_lt_Some).
  assert (Hfresh : (chi, beta, lr) ∉ take n grid).
  { intros Hin. apply list_elem_of_lookup in Hin as [j Hj].
    pose proof (lookup_lt_Some _ _ _ Hj) as Hlt. rewrite length_take in Hlt.
    rewrite lookup_take_lt in Hj by lia.
    pose proof (NoDup_lookup _ _ _ _ grid_NoDup Hj Hgrid). lia. }
  assert (Hlr : length (hyperparams_results st) = n)
    by (rewrite <- (length_map fst), Hres, length_take; lia).
  assert (Hlu : length (unitary_files st) = n)
    by (rewrite <- (length_map fst), Huni, length_take; lia).
  eexists. split; [reflexivity|].
  rewrite !dict_set_fresh by (by rewrite ?Hres, ?Huni).
  unfold progress. cbn [np_draws loader_iters unitary_files hyperparams_results].
  split; [lia|]. split; [unfold num_epochs; lia|].
  rewrite !map_app, Hres, Huni. cbn [map fst].
  rewrite (take_S_r _ _ _ Hgrid).
  split; [done|]. split; [done|].
  intros j chi' beta' lr' Hj Hgj.
  destruct (decide (j = n)) as [->|Hne].
  - rewrite Hgrid in Hgj. injection Hgj as <- <- <-.
    eexists ds, _, _, _, _, _, ref.
    split; [done|]. split; [exact Htrain|].
    rewrite !epoch_averages_length. split; [done|]. split; [done|].
    cbn [hyperparams_results unitary_files].
    rewrite !lookup_app_r by lia. rewrite Hlr, Hlu, Nat.sub_diag. cbn [lookup].
    split; [done|]. by rewrite Henc.
  - apply (trial_done_extend j chi' beta' lr' st); [| |apply Hdone; [lia|done]].
    + intros x Hx. cbn [hyperparams_results]. by apply lookup_app_l_Some.
    + intros x Hx. cbn [unitary_files]. by apply lookup_app_l_Some.
Qed.

(** A loop whose body advances the run by [m] trials advances it by [m]
    trials per element. *)
Lemma for_each_progress {A : Type} (m : nat) (xs : list A)
    (body : A → main_state I → run I) :
  ∀ (n : nat) (st : main_state I),
    progress_n n st →
    (∀ (i : nat) x st0, xs !! i = Some x → progress_n (n + m * i) st0 →
       ∃ st1, body x st0 = Completed st1 ∧ progress_n (n + m * i + m) st1) →
    ∃ st', for_each I xs body st = Completed st' ∧
           progress_n (n + m * length xs) st'.
Proof.
  induction xs as [|x xs IH]; intros n st Hst Hbody.
  - exists st. split; [done|]. by replace (n + m * length [])%nat with n by (simpl; lia).
  - destruct (Hbody 0%nat x st) as (st1 & Hx & Hst1); [done| |].
    { by replace (n + m * 0)%nat with n by lia. }
    replace (n + m * 0 + m)%nat with (n + m)%nat in Hst1 by lia.
    destruct (IH (n + m)%nat st1 Hst1) as (st' & Hloop & Hst').
    { intros i y st0 Hy Hst0.
      replace (n + m + m * i)%nat with (n + m * S i)%nat in * by lia.
      by apply (Hbody (S i) y st0). }
    exists st'. cbn [for_each]. rewrite Hx. split; [done|].
    by replace (n + m * length (x :: xs))%nat with (n + m + m * length xs)%nat
      by (cbn [length]; lia).
Qed.

(** The body of the loop over chi_list, on a file that loads. *)
Lemma chi_step (ic : nat) chi (st0 : main_state I) :
  chi_list !! ic = Some chi →
  (∃ ds, QutritDataset_init (files chi) = Returns ds) →
  progress_n (4 * ic) st0 →
  ∃ st1,
    match QutritDataset_init (files chi) with
    | Raises e => Aborted e (unitary_files st0)
    | Returns dataset =>
        match DataLoader (map to_qutrit (states dataset)) batch_size with
        | Raises e => Aborted e (unitary_files st0)
        | Returns dataloader =>
            for_each I beta_list
              (λ beta st,
                 for_each I lr_list
                   (λ lr st, trial I d_dw randn shuffle dataset dataloader chi beta lr st)
                   st)
              st0
        end
    end = Completed st1 ∧
    progress_n (4 * ic + 4) st1.
Proof.
  intros Hchi [ds Hds] Hst0. rewrite Hds.
  destruct (QutritDataset_init_returns _ _ Hds) as [Htwo _].
  unfold QutritDataset_len in Htwo.
  assert (Hld : DataLoader (map to_qutrit (states ds)) batch_size
                = Returns {| dl_dataset := map to_qutrit (states ds);
                             dl_batch_size := batch_size |}).
  { destruct (states ds); [simpl in Htwo; lia | done]. }
  rewrite Hld.
  apply (for_each_progress 2 beta_list _ (4 * ic)); [done|].
  intros ib beta st1 Hbeta Hst1.
  apply (for_each_progress 1 lr_list _ (4 * ic + 2 * ib)); [done|].
  intros il lr st2 Hlr Hst2.
  replace (4 * ic + 2 * ib + 1 * il + 1)%nat
    with (S (4 * ic + 2 * ib + il)) by lia.
  replace (4 * ic + 2 * ib + 1 * il)%nat
    with (4 * ic + 2 * ib + il)%nat in Hst2 by lia.
  apply trial_step; [by apply grid_lookup | done | done].
Qed.

Lemma progress_0 :
  progress_n 0 {| np_draws := 0; loader_iters := 0; unitary_files := [];
                  hyperparams_results := [] |}.
Proof.
  unfold progress. cbn [np_draws loader_iters unitary_files hyperparams_results map take].
  split; [done|]. split; [unfold num_epochs; lia|]. split; [done|]. split; [done|].
  intros j ???? Hj. lia.
Qed.

Lemma main_progress :
  (∀ chi, chi ∈ chi_list → ∃ ds, QutritDataset_init (files chi) = Returns ds) →
  ∃ st, main I d_dw randn shuffle files = Completed st ∧ progress_n 16 st.
Proof.
  intros files_load. unfold main.
  apply (for_each_progress 4 chi_list _ 0); [apply progress_0|].
  intros ic chi st0 Hchi Hst0.
  replace (0 + 4 * ic + 4)%nat with (4 * ic + 4)%nat by lia.
  replace (0 + 4 * ic)%nat with (4 * ic)%nat in Hst0 by lia.
  apply chi_step; [done| |done].
  apply files_load. by eapply list_elem_of_lookup_2.
Qed.

(** A loop that meets, at position [ic], an element on which the body
    raises before writing anything. *)
Lemma for_each_aborts {A : Type} (m : nat) (body : A → main_state I → run I)
    (e : exception) (ic : nat) :
  ∀ (xs : list A) (x : A) (n : nat) (st : main_state I),
    progress_n n st →
    xs !! ic = Some x →
    (∀ (i : nat) y st0, (i < ic)%nat → xs !! i = Some y → progress_n (n + m * i) st0 →
       ∃ st1, body y st0 = Completed st1 ∧ progress_n (n + m * i + m) st1) →
    (∀ st0, body x st0 = Aborted e (unitary_files st0)) →
    ∃ written, for_each I xs body st = Aborted e written ∧
               map fst written = take (n + m * ic) grid.
Proof.
  induction ic as [|ic IH]; intros xs x n st Hst Hx Hbody Hraise.
  - destruct xs as [|x' xs]; [done|]. injection Hx as ->.
    exists (unitary_files st). cbn [for_each]. rewrite Hraise. split; [done|].
    replace (n + m * 0)%nat with n by lia. apply Hst.
  - destruct xs as [|y xs]; [done|]. cbn [lookup] in Hx.
    destruct (Hbody 0%nat y st) as (st1 & Hy & Hst1); [lia|done| |].
    { by replace (n + m * 0)%nat with n by lia. }
    replace (n + m * 0 + m)%nat with (n + m)%nat in Hst1 by lia.
    destruct (IH xs x (n + m)%nat st1 Hst1 Hx) as (written & Hloop & Hw); [|done|].
    { intros i z st0 Hi Hz Hst0.
      replace (n + m + m * i)%nat with (n + m * S i)%nat in * by lia.
      apply (Hbody (S i) z st0); [lia|done|done]. }
    exists written. cbn [for_each]. rewrite Hy. split; [done|].
    by replace (n + m * S ic)%nat with (n + m + m * ic)%nat by lia.
Qed.

(** X15. When the four data files load, main runs all sixteen trials and
    reaches the final save: the results dict and the saved unitaries have
    one entry per combination of chi, beta and learning rate, in the order
    of the three loops and without repetition; every stored history has
    200 entries; 128 draws were taken from the NumPy generator and the
    loaders were iterated 3200 times. *)
Theorem main_completes :
  (∀ chi, chi ∈ chi_list → ∃ ds, QutritDataset_init (files chi) = Returns ds) →
  ∃ st, main I d_dw randn shuffle files = Completed st ∧
    map fst (hyperparams_results st) = grid ∧
    map fst (unitary_files st) = grid ∧
    grid = [(0.85, 1.0, 0.01); (0.85, 1.0, 0.001); (0.85, 8.0, 0.01); (0.85, 8.0, 0.001);
            (0.9, 1.0, 0.01); (0.9, 1.0, 0.001); (0.9, 8.0, 0.01); (0.9, 8.0, 0.001);
            (0.95, 1.0, 0.01); (0.95, 1.0, 0.001); (0.95, 8.0, 0.01); (0.95, 8.0, 0.001);
            (0.99, 1.0, 0.01); (0.99, 1.0, 0.001); (0.99, 8.0, 0.01); (0.99, 8.0, 0.001)] ∧
    NoDup grid ∧
    np_draws st = 128%nat ∧ loader_iters st = 3200%nat ∧
    Forall (λ entry, length (loss_history entry.2) = 200%nat ∧
                     length (cloning_loss_history entry.2) = 200%nat ∧
                     length (FA_history entry.2) = 200%nat ∧
                     length (FB_history entry.2) = 200%nat)
           (hyperparams_results st).
Proof.
  intros Hfiles.
  destruct (main_progress Hfiles) as (st & Hmain & Hd & Hi & Hres & Huni & Hdone).
  exists st. split; [done|].
  rewrite (take_ge grid 16) in Hres, Huni by (rewrite grid_length; lia).
  split; [done|]. split; [done|]. split; [reflexivity|]. split; [apply grid_NoDup|].
  split; [done|]. split; [done|].
  apply Forall_lookup. intros j [key h] Hj.
  assert (Hkey : grid !! j = Some key).
  { rewrite <- Hres, list_lookup_fmap, Hj. done. }
  pose proof (lookup_lt_Some _ _ _ Hkey) as Hlt. rewrite grid_length in Hlt.
  destruct key as [[chi beta] lr].
  destruct (Hdone j chi beta lr Hlt Hkey)
    as (ds & w & lh & ch & fa & fb & ref & _ & _ & Hlen & _ & Hr & _).
  rewrite Hj in Hr. injection Hr as ->. exact Hlen.
Qed.

(** X16. Trials do not share their start: when the four files load, trial
    number j of main (from 0, in loop order) is a call of train on the
    dataset of its chi that draws its initial parameters from the draws
    8j to 8j + 7 of the generator and uses the loader iterations 200j to
    200j + 199; entry j of the results holds the four histories this call
    returned, and entry j of the saved unitaries the unitary of the encoder
    at the parameters it returned, computed on state 0 of the dataset. *)
Theorem main_trials :
  (∀ chi, chi ∈ chi_list → ∃ ds, QutritDataset_init (files chi) = Returns ds) →
  ∃ st, main I d_dw randn shuffle files = Completed st ∧
    ∀ (j : nat) chi beta lr,
      grid !! j = Some (chi, beta, lr) →
      ∃ (ds : QutritDataset) (w : weights_t) (lh ch fa fb : list R) (ref : list complex),
        QutritDataset_init (files chi) = Returns ds ∧
        train I d_dw (λ i, randn (8 * j + i)%nat)
          (λ e, chunks batch_size
                  (shuffle (num_epochs * j + e)%nat (map to_qutrit (states ds))))
          num_epochs lr beta
        = Ok (w, lh, ch, fa, fb) ∧
        states ds !! 0%nat = Some ref ∧
        hyperparams_results st !! j
        = Some ((chi, beta, lr),
                {| loss_history := lh; cloning_loss_history := ch;
                   FA_history := fa; FB_history := fb |}) ∧
        unitary_files st !! j
        = Some ((chi, beta, lr), (encode_qutrit I (to_qutrit ref) w).2).
Proof.
  intros Hfiles.
  destruct (main_progress Hfiles) as (st & Hmain & _ & _ & _ & _ & Hdone).
  exists st. split; [done|].
  intros j chi beta lr Hkey.
  pose proof (lookup_lt_Some _ _ _ Hkey) as Hlt. rewrite grid_length in Hlt.
  destruct (Hdone j chi beta lr Hlt Hkey)
    as (ds & w & lh & ch & fa & fb & ref & Hds & Ht & _ & Href & Hr & Hu).
  exists ds, w, lh, ch, fa, fb, ref. done.
Qed.

(** X17. When the file of one chi does not load while those of the chi
    before it do, main raises the constructor's exception and never
    reaches the final save; the unitaries written are those of the trials
    of the earlier chi, four for each. *)
Theorem main_aborts (ic : nat) chi (e : exception) :
  chi_list !! ic = Some chi →
  (∀ (i : nat) chi', (i < ic)%nat → chi_list !! i = Some chi' →
     ∃ ds, QutritDataset_init (files chi') = Returns ds) →
  QutritDataset_init (files chi) = Raises e →
  ∃ written,
    main I d_dw randn shuffle files = Aborted e written ∧
    map fst written = take (4 * ic) grid.
Proof.
  intros Hchi Hbefore Hbad. unfold main.
  destruct (for_each_aborts 4
    (λ chi st,
       match QutritDataset_init (files chi) with
       | Raises e => Aborted e (unitary_files st)
       | Returns dataset =>
           match DataLoader (map to_qutrit (states dataset)) batch_size with
           | Raises e => Aborted e (unitary_files st)
           | Returns dataloader =>
               for_each I beta_list
                 (λ beta st,
                    for_each I lr_list
                      (λ lr st, trial I d_dw randn shuffle dataset dataloader chi beta lr st)
                      st)
                 st
           end
       end) e ic chi_list chi 0
    {| np_draws := 0; loader_iters := 0; unitary_files := [];
       hyperparams_results := [] |} progress_0 Hchi) as (written & Hrun & Hw).
  - intros i chi' st0 Hi Hchi' Hst0.
    replace (0 + 4 * i + 4)%nat with (4 * i + 4)%nat by lia.
    replace (0 + 4 * i)%nat with (4 * i)%nat in Hst0 by lia.
    apply chi_step; [done| |done]. by apply (Hbefore i).
  - intros st0. by rewrite Hbad.
  - exists written. split; [exact Hrun|]. exact Hw.
Qed.

End MainFacts.

(** * The further properties on the reference instance *)

Lemma reference_euclidean_norm_e1 :
  euclidean_norm
    (effective_part (compute_loss_frame Reference.imports Reference.w0 Reference.e1 8.0))
  = 1.
Proof.
  frame_fields. rewrite encode_qutrit_id. cbn [fst].
  cbv beta iota delta [euclidean_norm Cnorm2 slice_1_3 Reference.e1 Reference.C0
                       Reference.C1 x0 x1 y1 y2 Cre Cim fst snd].
  replace (1 * 1 + 0 * 0 + (0 * 0 + 0 * 0)) with 1 by lra. apply sqrt_1.
Qed.


Lemma cloning_loss_range_witness :
  -1 <= cloning_loss (compute_loss_frame Reference.imports Reference.w0 Reference.e1 8.0) <= 1.
Proof.
  destruct (frame_e1 Reference.w0 8.0) as (_ & Ha & Hb & _). cbv zeta in Ha, Hb.
  apply (cloning_loss_range Reference.imports Reference.w0 Reference.e1 8.0).
  - rewrite Ha. lra.
  - rewrite Hb. lra.
Defined.

Lemma batch_order_irrelevant_witness :
  compute_loss_batch Reference.imports Reference.w0 [Reference.e1; Reference.e0] 8.0
  = compute_loss_batch Reference.imports Reference.w0 [Reference.e0; Reference.e1] 8.0.
Proof.
  apply (batch_order_irrelevant Reference.imports Reference.w0
           [Reference.e1; Reference.e0] [Reference.e0; Reference.e1] 8.0).
  apply perm_swap.
Defined.

Lemma train_one_more_epoch_witness :
  ∃ (w : weights_t) (lh ch fa fb : list R) (x1 x2 x3 x4 : R),
    train Reference.imports Reference.d_dw Reference.randn Reference.two_batches 1 0.01 8.0
    = Ok (w, lh, ch, fa, fb) ∧
    train Reference.imports Reference.d_dw Reference.randn Reference.two_batches 2 0.01 8.0
    = Ok (weights_after Reference.imports Reference.d_dw 0.01 8.0 w (Reference.two_batches 1),
          lh ++ [x1], ch ++ [x2], fa ++ [x3], fb ++ [x4]).
Proof.
  destruct (train_one_more_epoch Reference.imports Reference.d_dw Reference.randn
              Reference.two_batches 1 0.01 8.0 (two_batches_nonempty 2))
    as (w & lh & ch & fa & fb & H1 & H2).
  exists w, lh, ch, fa, fb. eexists _, _, _, _. exact (conj H1 H2).
Defined.

Lemma reference_files_nonblank (chi : R) :
  nonblank (ReferenceRun.files chi)
  = [[0; 1; 0; 0; 0; 0; 1]; [1; 0; 0; 0; 0; 0; 0.5]; [0; 0; 0; 0; 0; 1; 0.25]].
Proof. reflexivity. Qed.

Lemma reference_files_load (chi : R) :
  QutritDataset_init (ReferenceRun.files chi)
  = Returns {| states := map row_state (nonblank (ReferenceRun.files chi)) |}.
Proof.
  apply (QutritDataset_init_six _ 7); rewrite ?reference_files_nonblank.
  - simpl. lia.
  - by repeat constructor.
  - lia.
Qed.

Lemma dataset_from_rows_witness :
  ∃ ds, QutritDataset_init (ReferenceRun.files 0.85) = Returns ds ∧
        states ds = map row_state (nonblank (ReferenceRun.files 0.85)) ∧
        QutritDataset_len ds = 3%nat.
Proof.
  assert (H2 : (2 ≤ length (nonblank (ReferenceRun.files 0.85)))%nat)
    by (rewrite reference_files_nonblank; simpl; lia).
  assert (H7 : Forall (λ row, length row = 7%nat) (nonblank (ReferenceRun.files 0.85)))
    by (rewrite reference_files_nonblank; by repeat constructor).
  assert (H6 : (6 ≤ 7)%nat) by lia.
  destruct (dataset_from_rows (ReferenceRun.files 0.85) 7 H2 H7 H6)
    as (ds & Hds & Hst & Hlen & _).
  exists ds. exact (conj Hds (conj Hst Hlen)).
Defined.

Lemma dataset_four_columns_witness :
  ∃ ds, QutritDataset_init ReferenceRun.four_columns = Returns ds ∧
        states ds = [[(1, 0.5); (0, 0.5); (0, 0.5)]; [(0, 0.25); (1, 0.25); (0, 0.25)]].
Proof.
  assert (H2 : (2 ≤ length (nonblank ReferenceRun.four_columns))%nat) by (simpl; lia).
  assert (H4 : Forall (λ row, length row = 4%nat) (nonblank ReferenceRun.four_columns))
    by (by repeat constructor).
  destruct (dataset_four_columns ReferenceRun.four_columns H2 H4) as (ds & Hds & Hst).
  exists ds. exact (conj Hds Hst).
Defined.

Lemma dataset_states_are_qutrits_witness :
  (2 ≤ QutritDataset_len
         {| states := map row_state (nonblank (ReferenceRun.files 0.85)) |})%nat.
Proof.
  apply (dataset_states_are_qutrits (ReferenceRun.files 0.85) _
           (reference_files_load 0.85)).
Defined.

Lemma reference_shuffle_permutation (k : nat) (l : list qutrit) :
  ReferenceRun.shuffle k l ≡ₚ l.
Proof.
  unfold ReferenceRun.shuffle. destruct (Nat.even k); [done|].
  apply reverse_Permutation.
Qed.

Lemma loader_epoch_witness :
  let batches :=
    loader_batches ReferenceRun.shuffle
      {| dl_dataset := [Reference.e1; Reference.e0; Reference.e1]; dl_batch_size := 2 |} 1 in
  concat batches = ReferenceRun.shuffle 1 [Reference.e1; Reference.e0; Reference.e1] ∧
  length batches
  = ((length (ReferenceRun.shuffle 1 [Reference.e1; Reference.e0; Reference.e1]) + 2 - 1) / 2)%nat.
Proof.
  assert (Hld : DataLoader [Reference.e1; Reference.e0; Reference.e1] 2
                = Returns {| dl_dataset := [Reference.e1; Reference.e0; Reference.e1];
                             dl_batch_size := 2 |}) by reflexivity.
  destruct (loader_epoch ReferenceRun.shuffle
              [Reference.e1; Reference.e0; Reference.e1] 2 _ 1 Hld)
    as (_ & _ & Hcat & _ & Hlen & _).
  exact (conj Hcat Hlen).
Defined.

Lemma reference_files_all_load (chi : R) :
  chi ∈ chi_list → ∃ ds, QutritDataset_init (ReferenceRun.files chi) = Returns ds.
Proof. intros _. eexists. apply reference_files_load. Qed.

Lemma main_completes_witness :
  ∃ st, main Reference.imports Reference.d_dw Reference.randn ReferenceRun.shuffle
             ReferenceRun.files = Completed st ∧
        map fst (hyperparams_results st) = grid ∧
        np_draws st = 128%nat.
Proof.
  destruct (main_completes Reference.imports Reference.d_dw Reference.randn
              ReferenceRun.shuffle ReferenceRun.files reference_shuffle_permutation
              reference_files_all_load)
    as (st & Hmain & Hres & _ & _ & _ & Hdraws & _).
  exists st. exact (conj Hmain (conj Hres Hdraws)).
Defined.

Lemma main_trials_witness :
  ∃ st (w : weights_t) (lh ch fa fb : list R),
    main Reference.imports Reference.d_dw Reference.randn ReferenceRun.shuffle
         ReferenceRun.files = Completed st ∧
    hyperparams_results st !! 5%nat
    = Some ((0.9, 1.0, 0.001),
            {| loss_history := lh; cloning_loss_history := ch;
               FA_history := fa; FB_history := fb |}).
Proof.
  destruct (main_trials Reference.imports Reference.d_dw Reference.randn
              ReferenceRun.shuffle ReferenceRun.files reference_shuffle_permutation
              reference_files_all_load) as (st & Hmain & Htrials).
  assert (Hkey : grid !! 5%nat = Some (0.9, 1.0, 0.001)) by reflexivity.
  destruct (Htrials 5%nat 0.9 1.0 0.001 Hkey)
    as (ds & w & lh & ch & fa & fb & ref & _ & _ & _ & Hres & _).
  exists st, w, lh, ch, fa, fb. exact (conj Hmain Hres).
Defined.

Lemma main_aborts_witness :
  ∃ written,
    main Reference.imports Reference.d_dw Reference.randn ReferenceRun.shuffle
         ReferenceRun.files_one_row = Aborted IndexError written ∧
    map fst written = take 4 grid.
Proof.
  assert (Hchi : chi_list !! 1%nat = Some 0.9) by reflexivity.
  assert (Hbefore : ∀ (i : nat) chi', (i < 1)%nat → chi_list !! i = Some chi' →
            ∃ ds, QutritDataset_init (ReferenceRun.files_one_row chi') = Returns ds).
  { intros i chi' Hi Hc. destruct i; [|lia]. injection Hc as <-.
    unfold ReferenceRun.files_one_row. rewrite decide_False by lra.
    eexists. apply reference_files_load. }
  assert (Hbad : QutritDataset_init (ReferenceRun.files_one_row 0.9) = Raises IndexError).
  { unfold ReferenceRun.files_one_row. rewrite decide_True by done. reflexivity. }
  exact (main_aborts Reference.imports Reference.d_dw Reference.randn
           ReferenceRun.shuffle ReferenceRun.files_one_row reference_shuffle_permutation
           1 0.9 IndexError Hchi Hbefore Hbad).
Defined.
